(** * neoxelox/errors: the [Error] value and its chain-walking algorithms

    A shallow embedding of the Go package [errors] together with the
    properties its specification states about it.  The package comes in two
    revisions; the embedding follows the later one, which carries [module],
    [tags], [Has], [StringReport] and [SentryReport].  The earlier revision
    ([errors.go]) has the same [Skip], [With], [Extra], [Cause] and [String];
    its [Is] compares kinds only, and its [Raise] leaves [captureStackTrace]
    unset on the instance.

    Modelling conventions.
    - Go strings are byte strings: [string] of the Standard Library.
    - Go's [int] is [Z]; the package does no arithmetic on it.
    - A Go map is a [gmap]; the nil map, which may be read but not written,
      is [None] in an [option (gmap _ _)].
    - A slice is a [list]; the nil slice and the empty slice behave alike for
      [len], slicing and iteration, the only operations the package uses.
    - A run-time panic is the [Fault] outcome of the [outcome] monad.
    - Methods with a pointer receiver ([Skip], [With], [Extra], [Cause],
      [Tags]) mutate the pointee and return the same pointer: they are state
      transformers on the receiver's [Error].
    - The map [seenTraces] that [StringReport] shares along the chain is
      threaded through [stringReport] and returned.
    - The iteration order of a Go [range] over a map is unspecified and
      picked anew by the runtime each time a [range] statement is run: it is
      the parameter [range] of the development, which depends on the
      statement being run (its [site]) and is only known to visit each entry
      once.  One [range] describes the choices of the runtime during one call
      of an exported function; properties that compare the texts of two calls
      are stated for two such parameters.
    - What the runtime reports about the call stack ([runtime.Callers]) is an
      argument of [New] and [Raise].
    - [sentry.Frame] and [sentry.NewFrame] belong to the [sentry-go] library:
      the type and the function are parameters of the development, the
      package deciding only which [runtime.Frame] it hands over.
    - A foreign error carries its dynamic type, and the type whether [==]
      accepts its values: comparing two interface values of one dynamic type
      that is not comparable is a run-time panic.
    - The cause chain is an inductive value, hence finite and acyclic.  An
      interface value holding a nil [*Error], on which every method of the
      package faults, is outside the model. *)

From Stdlib Require Import ZArith String Ascii List DecimalString.
From stdpp Require Import base option list gmap strings fin_maps.

#[local] Set Warnings "-register-all".

(** ** The Go runtime and library functions the package calls *)

Module Go.

(** Run-time panics the package can provoke. *)
Inductive panic : Set :=
  | SliceBoundsOutOfRange
  | AssignmentToNilMap
  | NilPointerDereference
  | UncomparableType.

(** The result of a call: a value, or a panic unwinding the caller. *)
Inductive outcome (A : Type) : Type :=
  | Ok (a : A)
  | Fault (p : panic).
Arguments Ok {A} a.
Arguments Fault {A} p.

#[export] Instance outcome_ret : MRet outcome := λ A a, Ok a.
#[export] Instance outcome_bind : MBind outcome := λ A B f m,
  match m with
  | Ok a => f a
  | Fault p => Fault p
  end.

(** Values of type [any] that reach the formatter. *)
Inductive any : Type :=
  | VString (s : string)
  | VInt (z : Z)
  | VBool (b : bool).

(** The control characters the package writes with escapes. *)
Definition LF : string := String "010" EmptyString.
Definition ESC : string := String "027" EmptyString.

(** [strconv.Itoa]. *)
Definition Itoa (i : Z) : string := NilZero.string_of_int (Z.to_int i).

(** [reflect.TypeOf(a).String()] on the modelled values. *)
Definition typeString (a : any) : string :=
  match a with
  | VString _ => "string"
  | VInt _ => "int"
  | VBool _ => "bool"
  end.

(** The default format, verb [v]. *)
Definition formatV (a : any) : string :=
  match a with
  | VString s => s
  | VInt z => Itoa z
  | VBool b => if b then "true" else "false"
  end.

(** [fmt]'s rendering of one operand under one verb; a verb the operand's
    type does not accept prints as [%!verb(type=value)]. *)
Definition printArg (a : any) (verb : ascii) : string :=
  let bad := "%!" +:+ String verb "(" +:+ typeString a +:+ "=" +:+ formatV a +:+ ")" in
  if decide (verb = "v"%char) then formatV a
  else match a with
       | VString s => if decide (verb = "s"%char) then s else bad
       | VInt z => if decide (verb = "d"%char) then Itoa z else bad
       | VBool b => if decide (verb = "t"%char) then formatV a else bad
       end.

(** Operands left over once the format is exhausted. *)
Fixpoint extraArgs (a : list any) : string :=
  match a with
  | [] => ""
  | x :: a' =>
      typeString x +:+ "=" +:+ formatV x +:+
      match a' with
      | [] => ""
      | _ :: _ => ", " +:+ extraArgs a'
      end
  end.

Definition reportExtra (a : list any) : string :=
  match a with
  | [] => ""
  | _ :: _ => "%!(EXTRA " +:+ extraArgs a +:+ ")"
  end.

(** [fmt.Sprintf] on directives made of [%] and a verb (no flags, width,
    precision or argument index; verbs [v], [s], [d], [t] and [%]).  It never
    fails: a missing operand prints as [%!verb(MISSING)], a trailing [%] as
    [%!(NOVERB)], surplus operands as [%!(EXTRA ...)]. *)
Fixpoint Sprintf (format : string) (a : list any) : string :=
  match format with
  | EmptyString => reportExtra a
  | String c rest =>
      if decide (c = "%"%char) then
        match rest with
        | EmptyString => "%!(NOVERB)" +:+ reportExtra a
        | String verb rest' =>
            if decide (verb = "%"%char) then String "%" (Sprintf rest' a)
            else match a with
                 | [] => "%!" +:+ String verb "(MISSING)" +:+ Sprintf rest' []
                 | x :: a' => printArg x verb +:+ Sprintf rest' a'
                 end
        end
      else String c (Sprintf rest a)
  end.

(** [strings.LastIndex]: the index of the last occurrence of [substr] in [s],
    or [-1]. *)
Fixpoint LastIndex (s substr : string) : Z :=
  match s with
  | EmptyString => if decide (substr = "") then 0 else (-1)
  | String _ s' =>
      let later := LastIndex s' substr in
      if (0 <=? later)%Z then (1 + later)%Z
      else if String.prefix substr s then 0%Z else (-1)%Z
  end.

(** [strings.TrimPrefix]. *)
Definition TrimPrefix (s prefix : string) : string :=
  if String.prefix prefix s
  then String.substring (String.length prefix) (String.length s - String.length prefix) s
  else s.

(** The slice expression [s[low:]]: in range when [0 <= low <= len(s)]. *)
Definition sliceFrom {A : Type} (s : list A) (low : Z) : outcome (list A) :=
  if decide (0 ≤ low ≤ Z.of_nat (length s))%Z
  then Ok (drop (Z.to_nat low) s)
  else Fault SliceBoundsOutOfRange.

(** The assignment [m[key] = value]. *)
Definition mapAssign {V : Type} (key : string) (value : V)
    (m : option (gmap string V)) : outcome (option (gmap string V)) :=
  match m with
  | Some entries => Ok (Some (<[key := value]> entries))
  | None => Fault AssignmentToNilMap
  end.

(** [len(m)] for a possibly nil map. *)
Definition mapLen {V : Type} (m : option (gmap string V)) : nat :=
  from_option size 0 m.

(** [_ANSI_COLOR_PATTERN.ReplaceAllString(s, "")] for the pattern
    [\x1b\[[0-9;]*m]: a scanner that holds back the bytes of a possible match
    and releases them when the match fails, the scan starting again at the
    byte that broke it. *)
Inductive sgrState : Set :=
  | Plain
  | SeenEsc
  | InParams (held : string).

Definition isParam (c : ascii) : bool :=
  bool_decide (c = ";"%char) || ((48 <=? nat_of_ascii c) && (nat_of_ascii c <=? 57)).

Fixpoint stripFrom (st : sgrState) (s : string) : string :=
  match s with
  | EmptyString =>
      match st with
      | Plain => ""
      | SeenEsc => ESC
      | InParams held => ESC +:+ "[" +:+ held
      end
  | String c s' =>
      let restart (_ : unit) :=
        if decide (c = "027"%char) then stripFrom SeenEsc s'
        else String c (stripFrom Plain s') in
      match st with
      | Plain => restart ()
      | SeenEsc =>
          if decide (c = "["%char) then stripFrom (InParams "") s'
          else ESC +:+ restart ()
      | InParams held =>
          if decide (c = "m"%char) then stripFrom Plain s'
          else if isParam c then stripFrom (InParams (held +:+ String c "")) s'
          else ESC +:+ "[" +:+ held +:+ restart ()
      end
  end.

Definition stripAnsiColor (s : string) : string := stripFrom Plain s.

(** [runtime.Frame], with the fields the package fills in. *)
Record RuntimeFrame : Type := mkRuntimeFrame {
  Function : string;
  File : string;
  Line : Z
}.

(** A dynamic type as [reflect.TypeOf] tells it: the name [String] prints,
    and whether values of the type may be compared with [==].  Slices, maps,
    functions and the structs and arrays that hold them may not. *)
Record rtype : Type := mkType {
  typeName : string;
  comparable : bool
}.

#[export] Instance rtype_eq_dec : EqDecision rtype.
Proof. solve_decision. Defined.

End Go.

(** ** The [sentry-go] types the package fills in *)

Module Sentry.

(** The records are parameterised by [Frame], the library's [sentry.Frame]:
    how [sentry.NewFrame] fills one in is the library's business.  A nil
    [*sentry.Stacktrace] is [None]. *)
Record Exception (Frame : Type) : Type := mkException {
  Type_ : string;
  Value : string;
  Module_ : string;
  Stacktrace : option (list Frame)
}.
Arguments mkException {Frame} _ _ _ _.
Arguments Type_ {Frame} _.
Arguments Value {Frame} _.
Arguments Module_ {Frame} _.
Arguments Stacktrace {Frame} _.

Inductive Level : Set :=
  | LevelUnset
  | LevelError.

(** The fields of [sentry.Event] the package touches; [NewEvent] allocates
    both maps. *)
Record Event (Frame : Type) : Type := mkEvent {
  Message : string;
  EventLevel : Level;
  Tags : gmap string string;
  Extra : gmap string Go.any;
  Exceptions : list (Exception Frame)
}.
Arguments mkEvent {Frame} _ _ _ _ _.
Arguments Message {Frame} _.
Arguments EventLevel {Frame} _.
Arguments Tags {Frame} _.
Arguments Extra {Frame} _.
Arguments Exceptions {Frame} _.

Definition NewEvent {Frame : Type} : Event Frame := mkEvent "" LevelUnset ∅ ∅ [].

End Sentry.

(** ** The package *)

Module Errors.
Import Go.

Definition _MAX_FRAMES : Z := 100.

Record frame : Type := mkFrame {
  file : string;
  line : Z;
  function : string
}.

(** An error value of another package: its dynamic type, the value the
    interface holds (for [errors.New] a pointer, named here by a number), and
    what its [Error] method returns. *)
Record foreign : Type := mkForeign {
  dynType : rtype;
  ref : positive;
  foreignError : string
}.

(** A value of interface type [error], seen through the type switch the
    package applies to it: nil, an [Error], a [*Error], or anything else. *)
Inductive iface (E : Type) : Type :=
  | ENil
  | EVal (e : E)
  | EPtr (e : E)
  | EForeign (f : foreign).
Arguments ENil {E}.
Arguments EVal {E} e.
Arguments EPtr {E} e.
Arguments EForeign {E} f.

(** Error represents an error with traceback and additional info. *)
Inductive Error : Type := mkError {
  kind : string;
  module : string;
  message : string;
  cause : iface Error;
  extra : option (gmap string any);
  stackTrace : list frame;
  captureStackTrace : bool;
  tags : option (gmap string string)
}.

Definition error : Type := iface Error.

Definition setMessage (m : string) (e : Error) : Error :=
  mkError (kind e) (module e) m (cause e) (extra e) (stackTrace e)
    (captureStackTrace e) (tags e).
Definition setCause (c : error) (e : Error) : Error :=
  mkError (kind e) (module e) (message e) c (extra e) (stackTrace e)
    (captureStackTrace e) (tags e).
Definition setExtra (x : option (gmap string any)) (e : Error) : Error :=
  mkError (kind e) (module e) (message e) (cause e) x (stackTrace e)
    (captureStackTrace e) (tags e).
Definition setStackTrace (s : list frame) (e : Error) : Error :=
  mkError (kind e) (module e) (message e) (cause e) (extra e) s
    (captureStackTrace e) (tags e).
Definition setTags (t : option (gmap string string)) (e : Error) : Error :=
  mkError (kind e) (module e) (message e) (cause e) (extra e) (stackTrace e)
    (captureStackTrace e) t.

(** *** The earlier revision, where it differs

    [errors.go] has no [module] and no [tags]; its [Raise] does not copy
    [captureStackTrace] into the instance, which leaves it false, and its
    [Is] compares kinds. *)

Module Earlier.

Inductive Error : Type := mkError {
  kind : string;
  message : string;
  cause : iface Error;
  extra : option (gmap string any);
  stackTrace : list frame;
  captureStackTrace : bool
}.

Definition New (message : string) (captureStackTrace : list bool) : Error :=
  let _captureStackTrace :=
    match captureStackTrace with
    | b :: _ => b
    | [] => true
    end in
  mkError message message ENil None [] _captureStackTrace.

Definition Raise (self : Error) (args : list any) (callers : list frame) : Error :=
  let stackTrace :=
    if captureStackTrace self then take (Z.to_nat _MAX_FRAMES) callers else [] in
  mkError (kind self) (Sprintf (message self) args) ENil (Some ∅) stackTrace false.

Definition Skip (frames : Z) (self : Error) : outcome Error :=
  if captureStackTrace self then
    stackTrace' ← sliceFrom (stackTrace self) frames;
    mret (mkError (kind self) (message self) (cause self) (extra self) stackTrace'
            (captureStackTrace self))
  else mret self.

Definition Is (self : Error) (err : iface Error) : bool :=
  match err with
  | ENil => false
  | EVal other => bool_decide (kind self = kind other)
  | EPtr other => bool_decide (kind self = kind other)
  | EForeign _ => false
  end.

End Earlier.

(** The [range] statements of the package over a map: the one of [Extra],
    the one of [Tags], the one of [stringReport] and the two of
    [sentryReport].  The last three are run once for each instance of the
    chain a report walks along: [level] is the position of the instance in
    the chain, the receiver of the exported call being at level 0. *)
Inductive site : Set :=
  | InExtra
  | InTags
  | InStringReport (level : nat)
  | InSentryExtra (level : nat)
  | InSentryTags (level : nat).

(** The choices of the runtime during a call: for each [range] statement
    run, the order in which it visits the entries of the map. *)
Definition schedule : Type := site → ∀ V : Type, gmap string V → list (string * V).

(** A schedule visits each entry of the map once. *)
Definition visitsOnce (range : schedule) : Prop :=
  ∀ (s : site) (V : Type) (m : gmap string V), range s V m ≡ₚ map_to_list m.

(** A schedule for examples: the order [map_to_list] happens to give, at
    every statement. *)
Definition mapOrder : schedule := λ _ V m, map_to_list m.

(** Another one: the reverse of that order, at every statement. *)
Definition reverseOrder : schedule := λ _ V m, reverse (map_to_list m).

(** A stand-in for [sentry.NewFrame] in examples: the [runtime.Frame] as it
    is. *)
Definition keepFrame : RuntimeFrame → RuntimeFrame := λ f, f.

Section Package.

(** The order in which each [range] statement of a call visits the entries
    of its map. *)
Variable range : schedule.
Hypothesis range_perm :
  ∀ (s : site) (V : Type) (m : gmap string V), range s V m ≡ₚ map_to_list m.

(** [sentry.Frame] and [sentry.NewFrame]. *)
Variable SentryFrame : Type.
Variable NewFrame : RuntimeFrame → SentryFrame.

Definition rangeOf {V : Type} (s : site) (m : option (gmap string V)) : list (string * V) :=
  from_option (range s V) [] m.

(** [New]: [caller] is the function name [runtime.Callers(2, _)] reports for
    the caller, if it reports a frame at all. *)
Definition New (message : string) (captureStackTrace : list bool)
    (caller : option string) : Error :=
  let _captureStackTrace :=
    match captureStackTrace with
    | b :: _ => b
    | [] => true
    end in
  let module :=
    match caller with
    | Some fn =>
        let separator := LastIndex fn "." in
        if (0 <=? separator)%Z then String.substring 0 (Z.to_nat separator) fn
        else "unknown"
    | None => "unknown"
    end in
  mkError message module message ENil None [] _captureStackTrace None.

(** [Raise]: [callers] are the frames of the call stack from the caller of
    [Raise] outwards; the buffer handed to [runtime.Callers] holds
    [_MAX_FRAMES] of them. *)
Definition Raise (self : Error) (args : list any) (callers : list frame) : Error :=
  let stackTrace :=
    if captureStackTrace self then take (Z.to_nat _MAX_FRAMES) callers else [] in
  mkError (kind self) (module self) (Sprintf (message self) args) ENil
    (Some ∅) stackTrace (captureStackTrace self) (Some ∅).

(** Skip removes n frames of the raised Error. *)
Definition Skip (frames : Z) (self : Error) : outcome Error :=
  if captureStackTrace self then
    stackTrace' ← sliceFrom (stackTrace self) frames;
    mret (setStackTrace stackTrace' self)
  else mret self.

(** With adds more context to the raised Error's message. *)
Definition With (message' : string) (args : list any) (self : Error) : Error :=
  setMessage (message self +:+ ": " +:+ Sprintf message' args) self.

(** Extra adds extra information to the raised Error. *)
Definition Extra (extra' : gmap string any) (self : Error) : outcome Error :=
  entries ← foldl (λ acc kv, m ← acc; mapAssign kv.1 kv.2 m)
                  (Ok (extra self)) (range InExtra any extra');
  mret (setExtra entries self).

(** Cause wraps an error into the raised Error. *)
Definition Cause (err : error) (self : Error) : Error := setCause err self.

(** Tags adds tags to the raised Error. *)
Definition Tags (tags' : gmap string any) (self : Error) : outcome Error :=
  entries ← foldl (λ acc kv, m ← acc; mapAssign kv.1 (Sprintf "%v" [kv.2]) m)
                  (Ok (tags self)) (range InTags any tags');
  mret (setTags entries self).

(** Is compares whether an error is Error's type. *)
Definition Is (self : Error) (err : error) : bool :=
  match err with
  | ENil => false
  | EVal other => bool_decide (kind self = kind other) && bool_decide (module self = module other)
  | EPtr other => bool_decide (kind self = kind other) && bool_decide (module self = module other)
  | EForeign _ => false
  end.

(** String implements the Stringer interface. *)
Fixpoint String_ (self : Error) : string :=
  let causeMessage :=
    match cause self with
    | ENil => ""
    | EVal c => ": " +:+ String_ c
    | EPtr c => ": " +:+ String_ c
    | EForeign f => ": " +:+ foreignError f
    end in
  message self +:+ causeMessage.

(** Error implements the Error interface. *)
Definition Error_ (self : Error) : string := String_ self.

(** The call [err.Error()] through the interface. *)
Definition callError (err : error) : outcome string :=
  match err with
  | ENil => Fault NilPointerDereference
  | EVal e => Ok (Error_ e)
  | EPtr e => Ok (Error_ e)
  | EForeign f => Ok (foreignError f)
  end.

(** The comparison [err == cause] where [cause] is a foreign error.  Values
    of different dynamic types are unequal, and so are nil, an [Error] and a
    [*Error] and a foreign error; values of one dynamic type are equal when
    the values held are, and comparing them panics when the type is not
    comparable. *)
Definition sameForeign (err : error) (cause : foreign) : outcome bool :=
  match err with
  | EForeign f =>
      if decide (dynType f = dynType cause) then
        if comparable (dynType cause) then Ok (bool_decide (ref f = ref cause))
        else Fault UncomparableType
      else Ok false
  | _ => Ok false
  end.

(** Has checks whether an error is wrapped inside the Error itself. *)
Fixpoint Has (self : Error) (err : error) : outcome bool :=
  if Is self err then mret true
  else match cause self with
       | ENil => mret false
       | EVal cause => Has cause err
       | EPtr cause => Has cause err
       | EForeign cause =>
           sameForeign err cause ≫= λ same : bool,
             if same then mret true
             else text ← callError err;
                  mret (bool_decide (text = foreignError cause))
       end.

(** The key of the set of locations already printed. *)
Definition fileline (fr : frame) : string := file fr +:+ ":" +:+ Itoa (line fr).

(** One iteration of the loop over the stack trace in [stringReport]; the
    state is [report], [ellipsis] and [seenTraces]. *)
Definition traceStep (st : string * bool * gmap string bool) (fr : frame)
    : string * bool * gmap string bool :=
  let '(report, ellipsis, seenTraces) := st in
  match seenTraces !! fileline fr with
  | None =>
      (report +:+ ("    " +:+ fileline fr +:+ LF) +:+ ("        " +:+ function fr +:+ LF),
       ellipsis, <[fileline fr := true]> seenTraces)
  | Some _ =>
      if negb ellipsis then (report +:+ ("    [...]" +:+ LF), true, seenTraces)
      else st
  end.

(** The part of [stringReport] that lists the stack trace, from the last
    captured frame to the first. *)
Definition traceReport (stackTrace : list frame) (seenTraces : gmap string bool)
    : string * gmap string bool :=
  if (0 <? length stackTrace)%nat then
    let '(report, _, seenTraces) := foldl traceStep ("", false, seenTraces) (reverse stackTrace) in
    (report, seenTraces)
  else ("    (Stack trace not available)" +:+ LF, seenTraces).

(** The line of [key=value] pairs, appended to [report] when the instance
    has extra entries. *)
Definition extraPair (report : string) (kv : string * any) : string :=
  report +:+ (kv.1 +:+ "=" +:+ Sprintf "%v" [kv.2] +:+ " ").

Definition extraReport (level : nat) (report : string) (extra : option (gmap string any))
    : string :=
  if (0 <? mapLen extra)%nat then
    foldl extraPair (report +:+ "    ") (rangeOf (InStringReport level) extra) +:+ LF
  else report.

Definition causedBy : string := LF +:+ "Caused by the following error:" +:+ LF.

Definition foreignReport (cause : foreign) : string :=
  ("    (Stack trace not available)" +:+ LF) +:+
  (ESC +:+ "[0;31m" +:+ foreignError cause +:+ ESC +:+ "[0m (" +:+
   TrimPrefix (typeName (dynType cause)) "*" +:+ ")" +:+ LF).

(** [stringReport]: the map [seenTraces] is shared along the chain, so it
    is threaded through the calls and returned; [level] counts the calls from
    the one [StringReport] makes, to tell their [range] statements apart. *)
Fixpoint stringReport (self : Error) (all : bool) (seenTraces : gmap string bool)
    (level : nat) : string * gmap string bool :=
  let '(report, seenTraces) := traceReport (stackTrace self) seenTraces in
  let report := report +:+ (ESC +:+ "[0;31m" +:+ message self +:+ ESC +:+ "[0m" +:+ LF) in
  let report := extraReport level report (extra self) in
  if all then
    match cause self with
    | ENil => (report, seenTraces)
    | EVal cause =>
        let '(sub, seenTraces) := stringReport cause all seenTraces (S level) in
        ((report +:+ causedBy) +:+ sub, seenTraces)
    | EPtr cause =>
        let '(sub, seenTraces) := stringReport cause all seenTraces (S level) in
        ((report +:+ causedBy) +:+ sub, seenTraces)
    | EForeign cause =>
        ((report +:+ causedBy) +:+ foreignReport cause, seenTraces)
    end
  else (report, seenTraces).

(** StringReport returns a string containing all the information about the
    first error or about all errors wrapped within the Error itself (default
    is all). *)
Definition StringReport (self : Error) (all : list bool) : string :=
  let _all :=
    match all with
    | b :: _ => b
    | [] => true
    end in
  let seenTraces : gmap string bool := ∅ in
  let report := ESC +:+ "[1;91m" +:+ String_ self +:+ ESC +:+ "[0m" +:+ LF +:+ LF in
  let report := report +:+ ("Traceback (most recent call last):" +:+ LF) in
  report +:+ (stringReport self _all seenTraces 0).1.

(** Format implements the Formatter interface: what is written for a verb
    and the [+] flag. *)
Definition Format (self : Error) (plus : bool) (verb : ascii) : string :=
  if decide (verb = "s"%char) then String_ self
  else if decide (verb = "v"%char) then
    if plus then StringReport self [] else StringReport self [false]
  else String_ self.

(** The [*sentry.Stacktrace] of an instance: nil without frames, else the
    frames [sentry.NewFrame] makes of the captured ones, from the last
    captured to the first. *)
Definition sentryFrames (stackTrace : list frame) : option (list SentryFrame) :=
  if (0 <? length stackTrace)%nat then
    Some (foldl (λ frames fr,
                   frames ++ [NewFrame (mkRuntimeFrame (function fr) (file fr) (line fr))])
                [] (reverse stackTrace))
  else None.

Definition appendException (x : Sentry.Exception SentryFrame)
    (report : Sentry.Event SentryFrame) : Sentry.Event SentryFrame :=
  Sentry.mkEvent (Sentry.Message report) (Sentry.EventLevel report) (Sentry.Tags report)
    (Sentry.Extra report) (Sentry.Exceptions report ++ [x]).
Definition assignExtra (report : Sentry.Event SentryFrame) (kv : string * any)
    : Sentry.Event SentryFrame :=
  Sentry.mkEvent (Sentry.Message report) (Sentry.EventLevel report) (Sentry.Tags report)
    (<[kv.1 := kv.2]> (Sentry.Extra report)) (Sentry.Exceptions report).
Definition assignTag (report : Sentry.Event SentryFrame) (kv : string * string)
    : Sentry.Event SentryFrame :=
  Sentry.mkEvent (Sentry.Message report) (Sentry.EventLevel report)
    (<[kv.1 := kv.2]> (Sentry.Tags report)) (Sentry.Extra report) (Sentry.Exceptions report).

(** [sentryReport] fills in the event its caller allocated; [level] counts
    the calls from the one [SentryReport] makes. *)
Fixpoint sentryReport (self : Error) (report : Sentry.Event SentryFrame) (level : nat)
    : Sentry.Event SentryFrame :=
  let report :=
    match cause self with
    | ENil => report
    | EVal cause => sentryReport cause report (S level)
    | EPtr cause => sentryReport cause report (S level)
    | EForeign cause =>
        appendException
          (Sentry.mkException (TrimPrefix (typeName (dynType cause)) "*") (foreignError cause)
             "" None)
          report
    end in
  let report := foldl assignExtra report (rangeOf (InSentryExtra level) (extra self)) in
  let report := foldl assignTag report (rangeOf (InSentryTags level) (tags self)) in
  let stackTrace := sentryFrames (stackTrace self) in
  appendException
    (Sentry.mkException (kind self) (String_ self) (module self) stackTrace) report.

(** SentryReport returns a Sentry Event containing all the information about
    the first error and all errors wrapped within itself. *)
Definition SentryReport (self : Error) : Sentry.Event SentryFrame :=
  let report := Sentry.NewEvent in
  let report :=
    Sentry.mkEvent (stripAnsiColor (StringReport self [])) Sentry.LevelError
      (<["package" := module self]> (Sentry.Tags report)) (Sentry.Extra report)
      (Sentry.Exceptions report) in
  sentryReport self report 0.

(** ** Notions the specification speaks of *)

(** An instance is raised when [Raise] made it and only the mutators
    touched it since. *)
Inductive raised : Error → Prop :=
  | raised_Raise template args callers :
      raised (Raise template args callers)
  | raised_Skip frames e e' :
      raised e → Skip frames e = Ok e' → raised e'
  | raised_With message' args e :
      raised e → raised (With message' args e)
  | raised_Extra extra' e e' :
      raised e → Extra extra' e = Ok e' → raised e'
  | raised_Cause err e :
      raised e → raised (Cause err e)
  | raised_Tags tags' e e' :
      raised e → Tags tags' e = Ok e' → raised e'.

(** Reference identity of a candidate and a foreign error: the candidate is
    a foreign error of the same dynamic type holding the same value. *)
Definition sameValue (candidate : error) (f : foreign) : bool :=
  match candidate with
  | EForeign g => bool_decide (dynType g = dynType f) && bool_decide (ref g = ref f)
  | _ => false
  end.

(** A candidate that [==] can compare with a foreign error: it is not of
    that error's dynamic type, or the type is comparable. *)
Definition comparesWith (candidate : error) (f : foreign) : Prop :=
  ∀ g, candidate = EForeign g → dynType g = dynType f → comparable (dynType f) = true.

(** The entry a possibly nil map holds under a key. *)
Definition entry {V : Type} (m : option (gmap string V)) (key : string) : option V :=
  m ≫= λ entries, entries !! key.

(** The links of a cause chain, the receiver first: every instance of the
    package, then the foreign error the chain may end in. *)
Inductive link : Type :=
  | Instance (e : Error)
  | Leaf (f : foreign).

Fixpoint links (self : Error) : list link :=
  Instance self ::
  match cause self with
  | ENil => []
  | EVal c => links c
  | EPtr c => links c
  | EForeign f => [Leaf f]
  end.

(** The instances of the package along the chain, the receiver first. *)
Fixpoint instances (self : Error) : list Error :=
  self ::
  match cause self with
  | EVal c => instances c
  | EPtr c => instances c
  | _ => []
  end.

(** The foreign error a chain ends in, if it ends in one. *)
Fixpoint foreignLeaf (self : Error) : option foreign :=
  match cause self with
  | ENil => None
  | EVal c => foreignLeaf c
  | EPtr c => foreignLeaf c
  | EForeign f => Some f
  end.

(** The depth of a chain: one per instance, one more for a foreign leaf. *)
Definition depth (self : Error) : nat :=
  length (instances self) +
  match foreignLeaf self with
  | Some _ => 1
  | None => 0
  end.

(** The exception record [sentryReport] makes of a link. *)
Definition exceptionOf (l : link) : Sentry.Exception SentryFrame :=
  match l with
  | Instance e =>
      Sentry.mkException (kind e) (String_ e) (module e) (sentryFrames (stackTrace e))
  | Leaf f =>
      Sentry.mkException (TrimPrefix (typeName (dynType f)) "*") (foreignError f) "" None
  end.

(** *** The report as a sequence of items

    [stringReport] appends pieces of text to [report]; the pieces are named
    here so that a report can be read back: which locations were printed,
    where an elision marker stands, where a separator stands. *)
Inductive item : Type :=
  | Location (fileline function : string)
  | Elision
  | NoTrace
  | MessageLine (message : string)
  | ExtraLine (pairs : string)
  | Separator
  | ForeignLine (message dynType : string).

#[export] Instance item_eq_dec : EqDecision item.
Proof. solve_decision. Defined.

Definition renderItem (i : item) : string :=
  match i with
  | Location fileline function =>
      ("    " +:+ fileline +:+ LF) +:+ ("        " +:+ function +:+ LF)
  | Elision => "    [...]" +:+ LF
  | NoTrace => "    (Stack trace not available)" +:+ LF
  | MessageLine message => ESC +:+ "[0;31m" +:+ message +:+ ESC +:+ "[0m" +:+ LF
  | ExtraLine pairs => "    " +:+ pairs +:+ LF
  | Separator => LF +:+ "Caused by the following error:" +:+ LF
  | ForeignLine message dynType =>
      ESC +:+ "[0;31m" +:+ message +:+ ESC +:+ "[0m (" +:+ dynType +:+ ")" +:+ LF
  end.

Definition render (items : list item) : string :=
  foldr (λ i text, renderItem i +:+ text) "" items.

(** The locations printed in full, in order. *)
Definition printed (items : list item) : list string :=
  omap (λ i, match i with Location fileline _ => Some fileline | _ => None end) items.

(** The items of the loop over the stack trace, [frames] being the frames
    in the order the loop visits them. *)
Fixpoint traceItems (frames : list frame) (ellipsis : bool) (seenTraces : gmap string bool)
    : list item * gmap string bool :=
  match frames with
  | [] => ([], seenTraces)
  | fr :: frames =>
      match seenTraces !! fileline fr with
      | None =>
          let '(items, seenTraces) :=
            traceItems frames ellipsis (<[fileline fr := true]> seenTraces) in
          (Location (fileline fr) (function fr) :: items, seenTraces)
      | Some _ =>
          let '(items, seenTraces) := traceItems frames true seenTraces in
          (if ellipsis then items else Elision :: items, seenTraces)
      end
  end.

(** The items of the stack trace of one instance. *)
Definition traceLines (stackTrace : list frame) (seenTraces : gmap string bool)
    : list item * gmap string bool :=
  match stackTrace with
  | [] => ([NoTrace], seenTraces)
  | _ :: _ => traceItems (reverse stackTrace) false seenTraces
  end.

(** The items one instance contributes before its cause is visited. *)
Definition ownItems (self : Error) (seenTraces : gmap string bool) (level : nat)
    : list item * gmap string bool :=
  let '(trace, seenTraces) := traceLines (stackTrace self) seenTraces in
  (trace ++ [MessageLine (message self)] ++
   (if (0 <? mapLen (extra self))%nat
    then [ExtraLine (foldl extraPair "" (rangeOf (InStringReport level) (extra self)))]
    else []),
   seenTraces).

(** The messages shown in a report, one per section. *)
Definition messages (items : list item) : list string :=
  omap (λ i, match i with
             | MessageLine message => Some message
             | ForeignLine message _ => Some message
             | _ => None
             end) items.

Definition linkMessage (l : link) : string :=
  match l with
  | Instance e => message e
  | Leaf f => foreignError f
  end.

(** The report in sections, one per link of the chain, the receiver first;
    an instance that goes on to its cause closes its section with the
    separator. *)
Fixpoint sections (self : Error) (all : bool) (seenTraces : gmap string bool)
    (level : nat) : list (list item) * gmap string bool :=
  let '(own, seenTraces) := ownItems self seenTraces level in
  if all then
    match cause self with
    | ENil => ([own], seenTraces)
    | EVal c =>
        let '(rest, seenTraces) := sections c all seenTraces (S level) in
        ((own ++ [Separator]) :: rest, seenTraces)
    | EPtr c =>
        let '(rest, seenTraces) := sections c all seenTraces (S level) in
        ((own ++ [Separator]) :: rest, seenTraces)
    | EForeign f =>
        ([own ++ [Separator];
          [NoTrace; ForeignLine (foreignError f) (TrimPrefix (typeName (dynType f)) "*")]],
         seenTraces)
    end
  else ([own], seenTraces).

(** The two lines every [StringReport] starts with. *)
Definition header (self : Error) : string :=
  (ESC +:+ "[1;91m" +:+ String_ self +:+ ESC +:+ "[0m" +:+ LF +:+ LF) +:+
  ("Traceback (most recent call last):" +:+ LF).

(** *** Notions used by further properties *)

(** Whether a byte occurs in a string. *)
Fixpoint hasByte (c : ascii) (s : string) : bool :=
  match s with
  | EmptyString => false
  | String a s' => bool_decide (a = c) || hasByte c s'
  end.

(** An instance raised from a given template and touched by the mutators
    only. *)
Inductive raisedFrom (template : Error) : Error → Prop :=
  | from_Raise args callers :
      raisedFrom template (Raise template args callers)
  | from_Skip frames e e' :
      raisedFrom template e → Skip frames e = Ok e' → raisedFrom template e'
  | from_With message' args e :
      raisedFrom template e → raisedFrom template (With message' args e)
  | from_Extra extra' e e' :
      raisedFrom template e → Extra extra' e = Ok e' → raisedFrom template e'
  | from_Cause err e :
      raisedFrom template e → raisedFrom template (Cause err e)
  | from_Tags tags' e e' :
      raisedFrom template e → Tags tags' e = Ok e' → raisedFrom template e'.

(** Texts joined by a separator. *)
Fixpoint joinWith (sep : string) (texts : list string) : string :=
  match texts with
  | [] => ""
  | text :: rest =>
      match rest with
      | [] => text
      | _ :: _ => text +:+ sep +:+ joinWith sep rest
      end
  end.

(** What [Has] asks of a candidate once it reaches a foreign cause: the
    expression [err == cause || err.Error() == cause.Error()]. *)
Definition leafMatches (candidate : error) (f : foreign) : outcome bool :=
  sameForeign candidate f ≫= λ same : bool,
    if same then mret true
    else text ← callError candidate; mret (bool_decide (text = foreignError f)).


(** A frame printed in full. *)
Definition locationOf (fr : frame) : item := Location (fileline fr) (function fr).

(** A stack trace none of whose locations was seen before or occurs in it
    twice. *)
Definition freshTrace (stackTrace : list frame) (seenTraces : gmap string bool) : Prop :=
  NoDup (fileline <$> stackTrace) ∧
  Forall (λ fr, seenTraces !! fileline fr = None) stackTrace.

(** The [runtime.Frame] [sentryReport] makes of a captured frame. *)
Definition runtimeFrame (fr : frame) : RuntimeFrame :=
  mkRuntimeFrame (function fr) (file fr) (line fr).

(** What [sentry.NewFrame] returns for it. *)
Definition sentryFrame (fr : frame) : SentryFrame := NewFrame (runtimeFrame fr).

(** The entry under a key of the first instance of a chain that has one. *)
Fixpoint firstEntry {V : Type} (get : Error → option (gmap string V))
    (chain : list Error) (key : string) : option V :=
  match chain with
  | [] => None
  | e :: rest =>
      match entry (get e) key with
      | Some value => Some value
      | None => firstEntry get rest key
      end
  end.

(** *** The report without colours *)

(** What a report reads like once its colour sequences are gone. *)
Definition plainItem (i : item) : string :=
  match i with
  | MessageLine message => message +:+ LF
  | ForeignLine message dynType => message +:+ " (" +:+ dynType +:+ ")" +:+ LF
  | other => renderItem other
  end.

Definition plainText (items : list item) : string :=
  foldr (λ i text, plainItem i +:+ text) "" items.

Definition plainHeader (self : Error) : string :=
  (String_ self +:+ LF +:+ LF) +:+ ("Traceback (most recent call last):" +:+ LF).

(** An instance none of whose texts holds the escape byte: its message, the
    files and functions of its frames, the keys and the rendered values of
    its extra entries. *)
Definition escapeFree (s : string) : Prop := hasByte "027" s = false.

Definition plainInstance (e : Error) : Prop :=
  escapeFree (message e) ∧
  Forall (λ fr, escapeFree (file fr) ∧ escapeFree (function fr)) (stackTrace e) ∧
  (∀ key value, entry (extra e) key = Some value →
                escapeFree key ∧ escapeFree (Sprintf "%v" [value])).

(** A chain of such instances, ending, if in a foreign error, in one whose
    text and type name are free of it too. *)
Definition plainChain (self : Error) : Prop :=
  Forall plainInstance (instances self) ∧
  (∀ f, foreignLeaf self = Some f →
        escapeFree (foreignError f) ∧ escapeFree (typeName (dynType f))).

(** An item whose texts are free of the escape byte. *)
Definition plainItemTexts (i : item) : Prop :=
  match i with
  | Location fileline function => escapeFree fileline ∧ escapeFree function
  | MessageLine message => escapeFree message
  | ExtraLine pairs => escapeFree pairs
  | ForeignLine message dynType => escapeFree message ∧ escapeFree dynType
  | _ => True
  end.

(** MarshalText implements the TextMarshaler interface: the bytes and the
    error returned, which is always nil. *)
Definition MarshalText (self : Error) : string * error := (String_ self, ENil).

Definition QUOTE : string := String "034" EmptyString.

(** MarshalJSON implements the JSONMarshaler interface. *)
Definition MarshalJSON (self : Error) : string * error :=
  (QUOTE +:+ String_ self +:+ QUOTE, ENil).

(** *** The JSON string literal (RFC 8259, section 7)

    A quotation mark, then characters none of which is a quotation mark, a
    reverse solidus or a control character unless escaped, then a quotation
    mark that ends the text.  Bytes above 127 are let through. *)

Definition isControl (c : ascii) : bool := (nat_of_ascii c <? 32)%nat.

Definition isEscape (c : ascii) : bool :=
  bool_decide (c ∈ ["034"; "\"; "/"; "b"; "f"; "n"; "r"; "t"]%char).

Definition isHex (c : ascii) : bool :=
  let n := nat_of_ascii c in
  ((48 <=? n) && (n <=? 57)) || ((65 <=? n) && (n <=? 70)) || ((97 <=? n) && (n <=? 102)).

Fixpoint jsonStringBody (s : string) : bool :=
  match s with
  | EmptyString => false
  | String c rest =>
      if decide (c = "034"%char) then bool_decide (rest = "")
      else if decide (c = "\"%char) then
        match rest with
        | String e rest' =>
            if isEscape e then jsonStringBody rest'
            else if decide (e = "u"%char) then
              match rest' with
              | String h1 (String h2 (String h3 (String h4 rest''))) =>
                  isHex h1 && isHex h2 && isHex h3 && isHex h4 && jsonStringBody rest''
              | _ => false
              end
            else false
        | EmptyString => false
        end
      else if isControl c then false
      else jsonStringBody rest
  end.

Definition isJSONString (s : string) : bool :=
  match s with
  | String c rest => bool_decide (c = "034"%char) && jsonStringBody rest
  | EmptyString => false
  end.

(** A text that needs no escaping inside a JSON string. *)
Fixpoint jsonSafe (s : string) : bool :=
  match s with
  | EmptyString => true
  | String c rest =>
      negb (bool_decide (c = "034"%char)) && negb (bool_decide (c = "\"%char))
      && negb (isControl c) && jsonSafe rest
  end.

(** ** The errors of the package's test

    [viewError] is what [view] returns in [errors_test.go], short of the
    extra entries and the tag: a deposit error caused by a user error caused
    by an error of the standard library.  Both instances are raised below
    [TestPrint], so their stack traces share that frame. *)

Definition ErrOtherLibrary : foreign :=
  mkForeign (mkType "*errors.errorString" true) 1 "other library error".

Definition ErrUserNotFound : Error :=
  New "user %s not found" [] (Some "github.com/neoxelox/errors_test.init").
Definition ErrCannotDeposit : Error :=
  New "cannot deposit" [] (Some "github.com/neoxelox/errors_test.init").

Definition inTestPrint : frame := mkFrame "errors_test.go" 17 "errors_test.TestPrint".
Definition repositoryCallers : list frame :=
  [mkFrame "errors_test.go" 135 "errors_test.repository";
   mkFrame "errors_test.go" 124 "errors_test.usecase";
   mkFrame "errors_test.go" 113 "errors_test.view";
   inTestPrint].
Definition viewCallers : list frame :=
  [mkFrame "errors_test.go" 115 "errors_test.view"; inTestPrint].

Definition repositoryError : Error :=
  Cause (EForeign ErrOtherLibrary) (Raise ErrUserNotFound [VString "Alex"] repositoryCallers).
Definition viewError : Error :=
  Cause (EPtr repositoryError)
    (With "cannot add money to account %s" [VString "ARN3107"]
       (Raise ErrCannotDeposit [] viewCallers)).

(** [viewError] holding one extra entry, and holding two. *)
Definition accountError : Error :=
  setExtra (Some {["userID" := VInt 310700]}) viewError.
Definition sessionError : Error :=
  setExtra (Some {["userID" := VInt 310700; "sessionID" := VInt 42]}) viewError.


(** ** Properties *)

(** *** Strings and the formatter *)

Lemma append_cons (x : ascii) (a b : string) : String x a +:+ b = String x (a +:+ b).
Proof. reflexivity. Qed.

Lemma append_assoc (a b c : string) : (a +:+ b) +:+ c = a +:+ (b +:+ c).
Proof. induction a as [|x a IH]; [done|]. by rewrite !append_cons, IH. Qed.

Lemma append_nil_r (a : string) : a +:+ "" = a.
Proof. induction a as [|x a IH]; [done|]. by rewrite append_cons, IH. Qed.

Lemma length_append (a b : string) :
  String.length (a +:+ b) = String.length a + String.length b.
Proof. induction a as [|x a IH]; [done|]. rewrite append_cons. cbn. by rewrite IH. Qed.

Lemma prefix_append (a b : string) : String.prefix a (a +:+ b) = true.
Proof.
  induction a as [|x a IH]; [by destruct b|].
  rewrite append_cons. cbn. by destruct (ascii_dec x x).
Qed.

Lemma Sprintf_v (value : any) : Sprintf "%v" [value] = formatV value.
Proof. apply append_nil_r. Qed.

(** *** Induction along the cause chain *)

Lemma Error_chain_ind (P : Error → Prop) :
  (∀ e, cause e = ENil → P e) →
  (∀ e c, cause e = EVal c → P c → P e) →
  (∀ e c, cause e = EPtr c → P c → P e) →
  (∀ e f, cause e = EForeign f → P e) →
  ∀ e, P e.
Proof.
  intros Hnil Hval Hptr Hforeign.
  fix IH 1. intros [k m msg c x st cap t].
  destruct c as [|c|c|f].
  - by apply Hnil.
  - apply (Hval _ c); [done|apply IH].
  - apply (Hptr _ c); [done|apply IH].
  - by apply (Hforeign _ f).
Qed.

Lemma String_unfold (self : Error) :
  String_ self =
  message self +:+
  match cause self with
  | ENil => ""
  | EVal c => ": " +:+ String_ c
  | EPtr c => ": " +:+ String_ c
  | EForeign f => ": " +:+ foreignError f
  end.
Proof. by destruct self. Qed.

Lemma Has_unfold (self : Error) (err : error) :
  Has self err =
  if Is self err then Ok true
  else match cause self with
       | ENil => Ok false
       | EVal c => Has c err
       | EPtr c => Has c err
       | EForeign f => leafMatches err f
       end.
Proof. by destruct self. Qed.

Lemma foreignLeaf_unfold (self : Error) :
  foreignLeaf self =
  match cause self with
  | ENil => None
  | EVal c => foreignLeaf c
  | EPtr c => foreignLeaf c
  | EForeign f => Some f
  end.
Proof. by destruct self. Qed.

(** Where [==] can compare, it tells reference identity. *)
Lemma sameForeign_comparable (candidate : error) (f : foreign) :
  comparesWith candidate f → sameForeign candidate f = Ok (sameValue candidate f).
Proof.
  destruct candidate as [|e|e|g]; try done. intros Hcompares. cbn.
  destruct (decide (dynType g = dynType f)) as [Htype|Htype].
  - by rewrite (Hcompares g eq_refl Htype), (bool_decide_eq_true_2 (dynType g = dynType f)).
  - by rewrite (bool_decide_eq_false_2 (dynType g = dynType f)).
Qed.


Lemma leafMatches_comparable (candidate : error) (f : foreign) :
  comparesWith candidate f →
  leafMatches candidate f
  = if sameValue candidate f then Ok true
    else text ← callError candidate; mret (bool_decide (text = foreignError f)).
Proof. intros Hcompares. unfold leafMatches. by rewrite sameForeign_comparable. Qed.

Lemma Is_nil (self : Error) : Is self ENil = false.
Proof. done. Qed.

(** *** Skip *)

(** C1 (as the code has it): on an instance with stack capture enabled,
    [Skip n] with [0 <= n <= len(stackTrace)] does not fault, drops the first
    [n] frames and returns the instance, so that [n = len(stackTrace)] leaves
    the trace empty; with [n] strictly greater than the number of captured
    frames the slice expression is out of range and [Skip n] faults. *)
Theorem Skip_bounds (e : Error) (n : Z) :
  captureStackTrace e = true →
  ((0 ≤ n ≤ Z.of_nat (length (stackTrace e)))%Z →
     Skip n e = Ok (setStackTrace (drop (Z.to_nat n) (stackTrace e)) e)) ∧
  (n = Z.of_nat (length (stackTrace e)) → Skip n e = Ok (setStackTrace [] e)) ∧
  ((Z.of_nat (length (stackTrace e)) < n)%Z → Skip n e = Fault SliceBoundsOutOfRange).
Proof.
  intros Hcapture. unfold Skip, sliceFrom. rewrite Hcapture.
  split; [|split].
  - intros Hn. by rewrite decide_True.
  - intros ->. rewrite decide_True by lia. cbn.
    by rewrite Nat2Z.id, drop_all.
  - intros Hn. by rewrite decide_False by lia.
Qed.

(** Without stack capture [Skip] leaves the instance as it is. *)
Lemma Skip_no_capture (e : Error) (n : Z) :
  captureStackTrace e = false → Skip n e = Ok e.
Proof. intros Hcapture. unfold Skip. by rewrite Hcapture. Qed.

(** *** Is *)

(** C2: [Is candidate] returns true exactly when the candidate is not nil,
    is an [Error] or a [*Error], and has the receiver's kind and module; two
    instances raised from one template are the same error whatever their
    arguments. *)
Theorem Is_iff (self : Error) (candidate : error) :
  (Is self candidate = true ↔
     candidate ≠ ENil ∧
     ∃ other, (candidate = EVal other ∨ candidate = EPtr other) ∧
              (kind self, module self) = (kind other, module other)) ∧
  (∀ (template : Error) (a b : list any) (callers_a callers_b : list frame),
     Is (Raise template a callers_a) (EPtr (Raise template b callers_b)) = true ∧
     Is (Raise template a callers_a) (EVal (Raise template b callers_b)) = true).
Proof.
  split.
  - destruct candidate as [|other|other|f]; cbn.
    + split; [done|]. by intros [? _].
    + rewrite andb_true_iff, !bool_decide_eq_true. split.
      * intros [-> ->]. split; [done|]. exists other. auto.
      * intros [_ (o & [[= <-]|[=]] & [= -> ->])]. done.
    + rewrite andb_true_iff, !bool_decide_eq_true. split.
      * intros [-> ->]. split; [done|]. exists other. auto.
      * intros [_ (o & [[=]|[= <-]] & [= -> ->])]. done.
    + split; [done|]. intros [_ (o & [[=]|[=]] & _)].
  - intros template a b ca cb. cbn.
    by rewrite !bool_decide_eq_true_2.
Qed.

(** In the earlier revision [Is] looks at the kind alone, and [Skip] never
    touches a raised instance, whose [captureStackTrace] is false; on a
    template it slices as above. *)
Lemma Earlier_Is_kind (self : Earlier.Error) (candidate : iface Earlier.Error) :
  Earlier.Is self candidate = true ↔
  ∃ other, (candidate = EVal other ∨ candidate = EPtr other) ∧
           Earlier.kind self = Earlier.kind other.
Proof.
  destruct candidate as [|other|other|f]; cbn; rewrite ?bool_decide_eq_true.
  - split; [done|]. by intros (o & [?|?] & _).
  - split; [eauto|]. by intros (o & [[= <-]|[=]] & ?).
  - split; [eauto|]. by intros (o & [[=]|[= <-]] & ?).
  - split; [done|]. by intros (o & [?|?] & _).
Qed.

Lemma Earlier_Skip_raised (template : Earlier.Error) (args : list any)
    (callers : list frame) (n : Z) :
  Earlier.Skip n (Earlier.Raise template args callers)
  = Ok (Earlier.Raise template args callers).
Proof. done. Qed.

Lemma Earlier_Skip_template (message : string) (n : Z) :
  (0 < n)%Z → Earlier.Skip n (Earlier.New message []) = Fault SliceBoundsOutOfRange.
Proof.
  intros Hn. unfold Earlier.Skip, sliceFrom. cbn. by rewrite decide_False by lia.
Qed.

(** *** Has *)

(** In the model [Has] returns for every candidate but nil that [==] can
    compare with the foreign error the chain ends in. *)
Lemma Has_total (self : Error) (candidate : error) :
  candidate ≠ ENil →
  (∀ f, foreignLeaf self = Some f → comparesWith candidate f) →
  ∃ b, Has self candidate = Ok b.
Proof.
  intros Hnil.
  induction self as [e He|e c He IH|e c He IH|e f He] using Error_chain_ind;
    rewrite Has_unfold, foreignLeaf_unfold, He; intros Hleaf;
    destruct (Is e candidate); eauto.
  rewrite leafMatches_comparable by auto.
  destruct (sameValue candidate f); eauto.
  destruct candidate; cbn; eauto. done.
Qed.



(** C10: [Has nil] faults when the chain ends in a foreign error, the
    comparison of display messages calling [Error] on the nil candidate, and
    returns false when the chain has instances of the package only. *)
Theorem Has_nil (self : Error) :
  Has self ENil =
  match foreignLeaf self with
  | Some _ => Fault NilPointerDereference
  | None => Ok false
  end.
Proof.
  induction self as [e He|e c He IH|e c He IH|e f He] using Error_chain_ind;
    rewrite Has_unfold, Is_nil, He; destruct e; cbn in *; by subst.
Qed.

(** *** String and With *)

(** C4: [String], and [Error] with it, is the receiver's message followed,
    exactly when a cause is attached, by a colon, a space and what the
    cause's [Error] returns; the deposit scenario of the specification
    yields the expected line. *)
Theorem String_flattens (self : Error) :
  Error_ self = String_ self ∧
  Ok (String_ self) =
    match cause self with
    | ENil => Ok (message self)
    | attached => text ← callError attached; mret (message self +:+ ": " +:+ text)
    end ∧
  ∀ (capture : list bool) (caller : option string) (callers : list frame)
    (dynType : rtype) (ref : positive),
    Error_ (Cause (EForeign (mkForeign dynType ref "other library error"))
              (With "cannot add money to account %s" [VString "ARN3107"]
                 (Raise (New "cannot deposit" capture caller) [] callers)))
    = "cannot deposit: cannot add money to account ARN3107: other library error".
Proof.
  split; [done|]. split; [|done].
  rewrite String_unfold. destruct (cause self); cbn; [|done..].
  by rewrite append_nil_r.
Qed.

(** C8: [With] appends a colon, a space and the formatted text to the
    message and changes nothing else, so the old message stays as a proper
    prefix; [With "x"] then [With "y"] yields the message followed by
    [": x: y"]. *)
Theorem With_appends (e : Error) (format : string) (args : list any) :
  message (With format args e) = message e +:+ ": " +:+ Sprintf format args ∧
  message (With "y" [] (With "x" [] e)) = message e +:+ ": x: y" ∧
  String.prefix (message e) (message (With format args e)) = true ∧
  String.length (message e) < String.length (message (With format args e)) ∧
  With format args e = setMessage (message (With format args e)) e.
Proof.
  split; [done|]. split; [|split; [|split]].
  - cbn. by rewrite append_assoc.
  - apply prefix_append.
  - cbn. rewrite !length_append. cbn. lia.
  - done.
Qed.

(** *** Extra and Tags *)

Lemma assign_fold {V W : Type} (f : V → W) (l : list (string * V)) (m : gmap string W) :
  foldl (λ acc kv, entries ← acc; mapAssign kv.1 (f kv.2) entries) (Ok (Some m)) l
  = Ok (Some (foldl (λ entries kv, <[kv.1 := f kv.2]> entries) m l)).
Proof. revert m. induction l as [|kv l IH]; intros m; [done|]. cbn. apply IH. Qed.

Lemma insert_fold_lookup {V W : Type} (f : V → W) (l : list (string * V))
    (m : gmap string W) (key : string) :
  NoDup l.*1 →
  foldl (λ entries kv, <[kv.1 := f kv.2]> entries) m l !! key
  = match (list_to_map l : gmap string V) !! key with
    | Some v => Some (f v)
    | None => m !! key
    end.
Proof.
  revert m. induction l as [|[k v] l IH]; intros m Hnodup; [done|].
  apply NoDup_cons in Hnodup as [Hk Hnodup]. cbn.
  rewrite IH by done. destruct (decide (k = key)) as [->|Hne].
  - rewrite (not_elem_of_list_to_map_1 _ key) by done.
    by rewrite !lookup_insert_eq.
  - by rewrite !lookup_insert_ne.
Qed.

Lemma range_lookup {V W : Type} (s : site) (f : V → W) (pairs : gmap string V)
    (m : gmap string W) (key : string) :
  foldl (λ entries kv, <[kv.1 := f kv.2]> entries) m (range s V pairs) !! key
  = match pairs !! key with
    | Some v => Some (f v)
    | None => m !! key
    end.
Proof.
  rewrite insert_fold_lookup.
  - rewrite (list_to_map_proper _ (map_to_list pairs)); [|  |apply range_perm].
    + by rewrite list_to_map_to_list.
    + rewrite range_perm. apply NoDup_fst_map_to_list.
  - rewrite range_perm. apply NoDup_fst_map_to_list.
Qed.

Lemma assign_fold_plain {V : Type} (l : list (string * V)) (m : gmap string V) :
  foldl (λ acc kv, entries ← acc; mapAssign kv.1 kv.2 entries) (Ok (Some m)) l
  = Ok (Some (foldl (λ entries kv, <[kv.1 := kv.2]> entries) m l)).
Proof. exact (assign_fold id l m). Qed.

Lemma range_lookup_plain {V : Type} (s : site) (pairs m : gmap string V) (key : string) :
  foldl (λ entries kv, <[kv.1 := kv.2]> entries) m (range s V pairs) !! key
  = match pairs !! key with
    | Some v => Some v
    | None => m !! key
    end.
Proof. exact (range_lookup s id pairs m key). Qed.

Lemma raised_maps (e : Error) : raised e → is_Some (extra e) ∧ is_Some (tags e).
Proof.
  induction 1 as [| n e e' _ IH Hs | | x e e' _ IH Hx | | t e e' _ IH Ht]; cbn; eauto.
  - unfold Skip in Hs. destruct (captureStackTrace e); [|by injection Hs as <-].
    destruct (sliceFrom _ _); [|done]. by injection Hs as <-.
  - destruct IH as [[m Hm] Ht]. unfold Extra in Hx.
    rewrite Hm, assign_fold_plain in Hx. injection Hx as <-. eauto.
  - destruct IH as [Hx [m Hm]]. unfold Tags in Ht.
    rewrite Hm, (assign_fold (λ v, Sprintf "%v" [v])) in Ht. injection Ht as <-. eauto.
Qed.

Lemma Extra_raised (e : Error) (pairs : gmap string any) :
  raised e →
  ∃ e', Extra pairs e = Ok e' ∧ e' = setExtra (extra e') e ∧
        ∀ key, entry (extra e') key
               = match pairs !! key with
                 | Some v => Some v
                 | None => entry (extra e) key
                 end.
Proof.
  intros [[m Hm] _]%raised_maps. unfold Extra.
  rewrite Hm, assign_fold_plain. eexists. split; [done|]. split; [done|].
  intros key. cbn. by rewrite range_lookup_plain.
Qed.

Lemma Tags_raised (e : Error) (pairs : gmap string any) :
  raised e →
  ∃ e', Tags pairs e = Ok e' ∧ e' = setTags (tags e') e ∧
        ∀ key, entry (tags e') key
               = match pairs !! key with
                 | Some v => Some (Sprintf "%v" [v])
                 | None => entry (tags e) key
                 end.
Proof.
  intros [_ [m Hm]]%raised_maps. unfold Tags.
  rewrite Hm, (assign_fold (λ v, Sprintf "%v" [v])). eexists. split; [done|]. split; [done|].
  intros key. cbn. by rewrite (range_lookup InTags (λ v, Sprintf "%v" [v])).
Qed.

(** C9: on a raised instance [Extra] and [Tags] return the instance with
    the given pairs merged into its map and nothing else changed: a key of
    the argument takes the argument's value, [Tags] storing its [%v]
    rendering, every other key keeps its entry, and a later merge of a key
    replaces what an earlier merge stored. *)
Theorem merge_last_write_wins (e : Error) (pairs later : gmap string any) :
  raised e →
  (∃ e1, Extra pairs e = Ok e1 ∧ e1 = setExtra (extra e1) e ∧
     (∀ key, entry (extra e1) key
             = match pairs !! key with
               | Some v => Some v
               | None => entry (extra e) key
               end) ∧
     ∃ e2, Extra later e1 = Ok e2 ∧
       ∀ key v, later !! key = Some v → entry (extra e2) key = Some v) ∧
  (∃ e1, Tags pairs e = Ok e1 ∧ e1 = setTags (tags e1) e ∧
     (∀ key, entry (tags e1) key
             = match pairs !! key with
               | Some v => Some (Sprintf "%v" [v])
               | None => entry (tags e) key
               end) ∧
     ∃ e2, Tags later e1 = Ok e2 ∧
       ∀ key v, later !! key = Some v → entry (tags e2) key = Some (Sprintf "%v" [v])).
Proof.
  intros Hraised. split.
  - destruct (Extra_raised e pairs Hraised) as (e1 & H1 & Hframe & Hlookup).
    exists e1. repeat split; try done.
    destruct (Extra_raised e1 later) as (e2 & H2 & _ & Hlookup2).
    { by eapply raised_Extra. }
    exists e2. split; [done|]. intros key v Hv. by rewrite Hlookup2, Hv.
  - destruct (Tags_raised e pairs Hraised) as (e1 & H1 & Hframe & Hlookup).
    exists e1. repeat split; try done.
    destruct (Tags_raised e1 later) as (e2 & H2 & _ & Hlookup2).
    { by eapply raised_Tags. }
    exists e2. split; [done|]. intros key v Hv. by rewrite Hlookup2, Hv.
Qed.

(** On a template, whose maps are nil, a merge of at least one pair faults. *)
Lemma Extra_template (message : string) (capture : list bool) (caller : option string)
    (key : string) (value : any) :
  Extra {[key := value]} (New message capture caller) = Fault AssignmentToNilMap.
Proof.
  unfold Extra. cbn.
  pose proof (range_perm InExtra any {[key := value]}) as Hperm.
  rewrite map_to_list_singleton in Hperm.
  apply Permutation_singleton_r in Hperm. by rewrite Hperm.
Qed.

(** *** SentryReport *)

Lemma links_unfold (self : Error) :
  links self =
  Instance self ::
  match cause self with
  | ENil => []
  | EVal c => links c
  | EPtr c => links c
  | EForeign f => [Leaf f]
  end.
Proof. by destruct self. Qed.

Lemma length_links (self : Error) : length (links self) = depth self.
Proof.
  unfold depth.
  induction self as [e He|e c He IH|e c He IH|e f He] using Error_chain_ind;
    rewrite links_unfold; destruct e; cbn in *; subst; cbn; rewrite ?IH; lia.
Qed.

Lemma assignExtra_exceptions (l : list (string * any)) (report : Sentry.Event SentryFrame) :
  Sentry.Exceptions (foldl assignExtra report l) = Sentry.Exceptions report.
Proof. revert report. induction l as [|kv l IH]; intros report; [done|]. cbn. by rewrite IH. Qed.

Lemma assignTag_exceptions (l : list (string * string)) (report : Sentry.Event SentryFrame) :
  Sentry.Exceptions (foldl assignTag report l) = Sentry.Exceptions report.
Proof. revert report. induction l as [|kv l IH]; intros report; [done|]. cbn. by rewrite IH. Qed.

Lemma appendException_exceptions (x : Sentry.Exception SentryFrame)
    (report : Sentry.Event SentryFrame) :
  Sentry.Exceptions (appendException x report) = Sentry.Exceptions report ++ [x].
Proof. done. Qed.

Lemma sentryReport_unfold (self : Error) (report : Sentry.Event SentryFrame) (level : nat) :
  sentryReport self report level =
  appendException (exceptionOf (Instance self))
    (foldl assignTag
       (foldl assignExtra
          match cause self with
          | ENil => report
          | EVal c => sentryReport c report (S level)
          | EPtr c => sentryReport c report (S level)
          | EForeign f => appendException (exceptionOf (Leaf f)) report
          end
          (rangeOf (InSentryExtra level) (extra self)))
       (rangeOf (InSentryTags level) (tags self))).
Proof. by destruct self. Qed.

(** [sentryReport] appends one record per link, the cause's before the
    receiver's. *)
Lemma sentryReport_appends (self : Error) (report : Sentry.Event SentryFrame) (level : nat) :
  Sentry.Exceptions (sentryReport self report level)
  = Sentry.Exceptions report ++ reverse (exceptionOf <$> links self).
Proof.
  revert report level.
  induction self as [e He|e c He IH|e c He IH|e f He] using Error_chain_ind;
    intros report level;
    rewrite sentryReport_unfold, links_unfold, He, fmap_cons, reverse_cons,
      appendException_exceptions, assignTag_exceptions, assignExtra_exceptions.
  - done.
  - by rewrite IH, <-(assoc_L (++)).
  - by rewrite IH, <-(assoc_L (++)).
  - by rewrite appendException_exceptions, <-(assoc_L (++)).
Qed.

(** C5: the exception list of [SentryReport] has one record per link of the
    cause chain, as many as the chain is deep, in the reverse of the chain's
    order: the innermost link first, the receiver last. *)
Theorem SentryReport_exceptions (self : Error) :
  let exceptions := Sentry.Exceptions (SentryReport self) in
  length exceptions = depth self ∧
  exceptions = reverse (exceptionOf <$> links self) ∧
  last exceptions = Some (exceptionOf (Instance self)) ∧
  head exceptions = exceptionOf <$> last (links self) ∧
  ∀ (i : nat) (l : link),
    links self !! i = Some l → exceptions !! (depth self - S i) = Some (exceptionOf l).
Proof.
  cbn zeta. unfold SentryReport. rewrite sentryReport_appends. cbn.
  split; [|split; [done|split; [|split]]].
  - by rewrite length_reverse, length_fmap, length_links.
  - by rewrite last_reverse, links_unfold.
  - by rewrite head_reverse, fmap_last.
  - intros i l Hl.
    assert (i < length (links self)) as Hi by (by eapply lookup_lt_Some).
    rewrite reverse_lookup by (rewrite length_fmap, <-length_links; lia).
    rewrite length_fmap, <-length_links, list_lookup_fmap.
    replace (length (links self) - S (length (links self) - S i)) with i by lia.
    by rewrite Hl.
Qed.

(** *** The report and its items *)

Lemma render_app (a b : list item) : render (a ++ b) = render a +:+ render b.
Proof.
  induction a as [|i a IH]; [done|].
  cbn. fold (render (a ++ b)) (render a). by rewrite IH, append_assoc.
Qed.

Lemma render_cons (i : item) (a : list item) : render (i :: a) = renderItem i +:+ render a.
Proof. done. Qed.

Lemma traceItems_cons (fr : frame) (frames : list frame) (ellipsis : bool)
    (seenTraces : gmap string bool) :
  traceItems (fr :: frames) ellipsis seenTraces =
  match seenTraces !! fileline fr with
  | None =>
      (Location (fileline fr) (function fr)
         :: (traceItems frames ellipsis (<[fileline fr := true]> seenTraces)).1,
       (traceItems frames ellipsis (<[fileline fr := true]> seenTraces)).2)
  | Some _ =>
      (if ellipsis then (traceItems frames true seenTraces).1
       else Elision :: (traceItems frames true seenTraces).1,
       (traceItems frames true seenTraces).2)
  end.
Proof.
  cbn. destruct (seenTraces !! fileline fr).
  - by destruct (traceItems frames true seenTraces).
  - by destruct (traceItems frames ellipsis _).
Qed.

(** The loop of the source writes what the items render to. *)
Lemma traceStep_items (frames : list frame) (report : string) (ellipsis : bool)
    (seenTraces : gmap string bool) :
  ∃ ellipsis',
    foldl traceStep (report, ellipsis, seenTraces) frames
    = (report +:+ render (traceItems frames ellipsis seenTraces).1, ellipsis',
       (traceItems frames ellipsis seenTraces).2).
Proof.
  revert report ellipsis seenTraces.
  induction frames as [|fr frames IH]; intros report ellipsis seenTraces.
  { exists ellipsis. cbn. by rewrite append_nil_r. }
  rewrite traceItems_cons. cbn [foldl traceStep].
  destruct (seenTraces !! fileline fr) as [b|]; cbn [fst snd].
  - destruct ellipsis; cbn [negb].
    + apply IH.
    + destruct (IH (report +:+ ("    [...]" +:+ LF)) true seenTraces) as [ellipsis' ->].
      exists ellipsis'. by rewrite render_cons, append_assoc.
  - edestruct IH as [ellipsis' ->]. exists ellipsis'.
    by rewrite render_cons, append_assoc.
Qed.

Lemma extraPair_fold (l : list (string * any)) (report : string) :
  foldl extraPair report l = report +:+ foldl extraPair "" l.
Proof.
  revert report. induction l as [|kv l IH]; intros report; cbn [foldl].
  - by rewrite append_nil_r.
  - rewrite IH, (IH (extraPair "" kv)). unfold extraPair at 1 3.
    by rewrite append_assoc.
Qed.

Lemma ownItems_report (self : Error) (seenTraces : gmap string bool) (level : nat) :
  (let '(report, seenTraces) := traceReport (stackTrace self) seenTraces in
   (extraReport level
      (report +:+ (ESC +:+ "[0;31m" +:+ message self +:+ ESC +:+ "[0m" +:+ LF))
      (extra self),
    seenTraces))
  = (render (ownItems self seenTraces level).1, (ownItems self seenTraces level).2).
Proof.
  unfold traceReport, ownItems, traceLines, extraReport.
  destruct (0 <? mapLen (extra self))%nat;
    (destruct (stackTrace self) as [|fr frames] eqn:Hst;
     [|destruct (traceStep_items (reverse (fr :: frames)) "" false seenTraces) as [ell Hloop];
       cbn [length Nat.ltb Nat.leb]; rewrite Hloop;
       destruct (traceItems _ _ _) as [trace seen']]);
    cbn [length Nat.ltb Nat.leb fst snd];
    rewrite ?(extraPair_fold _ (_ +:+ "    ")), !render_app; cbn [render foldr renderItem String.append];
    by rewrite ?append_nil_r, ?append_assoc.
Qed.

Lemma stringReport_unfold (self : Error) (all : bool) (seenTraces : gmap string bool)
    (level : nat) :
  stringReport self all seenTraces level =
  let '(report, seenTraces) := traceReport (stackTrace self) seenTraces in
  let report := report +:+ (ESC +:+ "[0;31m" +:+ message self +:+ ESC +:+ "[0m" +:+ LF) in
  let report := extraReport level report (extra self) in
  if all then
    match cause self with
    | ENil => (report, seenTraces)
    | EVal cause =>
        let '(sub, seenTraces) := stringReport cause all seenTraces (S level) in
        ((report +:+ causedBy) +:+ sub, seenTraces)
    | EPtr cause =>
        let '(sub, seenTraces) := stringReport cause all seenTraces (S level) in
        ((report +:+ causedBy) +:+ sub, seenTraces)
    | EForeign cause =>
        ((report +:+ causedBy) +:+ foreignReport cause, seenTraces)
    end
  else (report, seenTraces).
Proof. by destruct self. Qed.

Lemma sections_unfold (self : Error) (all : bool) (seenTraces : gmap string bool)
    (level : nat) :
  sections self all seenTraces level =
  let own := (ownItems self seenTraces level).1 in
  let seenTraces := (ownItems self seenTraces level).2 in
  if all then
    match cause self with
    | ENil => ([own], seenTraces)
    | EVal c => ((own ++ [Separator]) :: (sections c all seenTraces (S level)).1,
                 (sections c all seenTraces (S level)).2)
    | EPtr c => ((own ++ [Separator]) :: (sections c all seenTraces (S level)).1,
                 (sections c all seenTraces (S level)).2)
    | EForeign f =>
        ([own ++ [Separator];
          [NoTrace; ForeignLine (foreignError f) (TrimPrefix (typeName (dynType f)) "*")]],
         seenTraces)
    end
  else ([own], seenTraces).
Proof.
  destruct self as [k m msg c x st cap t]. cbn [sections cause].
  destruct (ownItems _ seenTraces level) as [own seen']. cbn [fst snd].
  destruct all; [|done]. destruct c as [|c|c|f]; try done;
    by destruct (sections c true seen' (S level)).
Qed.

(** [stringReport] writes what its sections render to, and leaves the same
    set of seen locations. *)
Lemma stringReport_sections (self : Error) (all : bool) (seenTraces : gmap string bool)
    (level : nat) :
  stringReport self all seenTraces level
  = (render (concat (sections self all seenTraces level).1),
     (sections self all seenTraces level).2).
Proof.
  revert seenTraces level.
  induction self as [e He|e c He IH|e c He IH|e f He] using Error_chain_ind;
    intros seenTraces level; rewrite stringReport_unfold, sections_unfold;
    pose proof (ownItems_report e seenTraces level) as Hown;
    destruct (traceReport _ _) as [report seen'];
    injection Hown as Hreport Hseen; cbn zeta; rewrite Hreport, <-Hseen, He;
    destruct all; cbn [fst snd concat]; rewrite ?(right_id_L [] (++)); try done.
  - rewrite IH. cbn [fst snd]. by rewrite !render_app.
  - rewrite IH. cbn [fst snd]. by rewrite !render_app.
  - rewrite !render_app. cbn [render foldr renderItem].
    unfold foreignReport. by rewrite ?append_nil_r, ?append_assoc.
Qed.

Lemma StringReport_sections (self : Error) (all : list bool) :
  StringReport self all
  = header self +:+ render (concat (sections self (default true (head all)) ∅ 0).1).
Proof.
  unfold StringReport, header. rewrite stringReport_sections. cbn [fst].
  destruct all; cbn [head default]; by rewrite ?append_assoc.
Qed.

(** *** Locations are printed once *)

Lemma printed_app (a b : list item) : printed (a ++ b) = printed a ++ printed b.
Proof. apply omap_app. Qed.

Lemma printed_elided (ellipsis : bool) (items : list item) :
  printed (if ellipsis then items else Elision :: items) = printed items.
Proof. by destruct ellipsis. Qed.

(** The loop prints each location at most once, none that was seen before,
    and leaves every location it met in the set. *)
Lemma traceItems_spec (frames : list frame) (ellipsis : bool) (seenTraces : gmap string bool) :
  let items := (traceItems frames ellipsis seenTraces).1 in
  let seenTraces' := (traceItems frames ellipsis seenTraces).2 in
  NoDup (printed items) ∧
  (∀ key, key ∈ printed items → seenTraces !! key = None) ∧
  (∀ key, is_Some (seenTraces' !! key) ↔ is_Some (seenTraces !! key) ∨ key ∈ printed items) ∧
  (∀ fr, fr ∈ frames → is_Some (seenTraces' !! fileline fr)).
Proof.
  cbn zeta. revert ellipsis seenTraces.
  induction frames as [|fr frames IH]; intros ellipsis seenTraces.
  { cbn. split; [constructor|]. split; [by intros ? ?%elem_of_nil|].
    split; [|by intros ? ?%elem_of_nil]. intros key. split; [auto|].
    by intros [?|?%elem_of_nil]. }
  rewrite traceItems_cons. destruct (seenTraces !! fileline fr) as [b|] eqn:Hseen; cbn [fst snd].
  - rewrite printed_elided.
    destruct (IH true seenTraces) as (Hnodup & Hfresh & Hiff & Hcovers).
    repeat split; try done; try apply Hiff.
    intros fr' [->|Hin]%elem_of_cons; [|by apply Hcovers].
    apply Hiff. left. by rewrite Hseen.
  - destruct (IH ellipsis (<[fileline fr := true]> seenTraces))
      as (Hnodup & Hfresh & Hiff & Hcovers).
    change (printed (Location (fileline fr) (function fr) :: ?l))
      with (fileline fr :: printed l).
    split; [|split; [|split]].
    + apply NoDup_cons. split; [|done].
      intros Hin%Hfresh. by rewrite lookup_insert_eq in Hin.
    + intros key [->|Hin%Hfresh]%elem_of_cons; [done|].
      by apply lookup_insert_None in Hin as [? _].
    + intros key. rewrite Hiff, elem_of_cons.
      destruct (decide (fileline fr = key)) as [->|Hne].
      * rewrite lookup_insert_eq. split; [auto|]. intros _. left. eauto.
      * rewrite lookup_insert_ne by done. intuition congruence.
    + intros fr' [->|Hin]%elem_of_cons; [|by apply Hcovers].
      apply Hiff. left. rewrite lookup_insert_eq. eauto.
Qed.

Lemma traceItems_elided (frames : list frame) (seenTraces : gmap string bool) :
  count_occ item_eq_dec (traceItems frames true seenTraces).1 Elision = 0.
Proof.
  revert seenTraces. induction frames as [|fr frames IH]; intros seenTraces; [done|].
  rewrite traceItems_cons. destruct (seenTraces !! fileline fr); cbn [fst]; [done|].
  by rewrite count_occ_cons_neq.
Qed.

(** A loop that meets a location seen before writes the marker once. *)
Lemma traceItems_elision (frames : list frame) (seenTraces : gmap string bool) :
  (∃ fr, fr ∈ frames ∧ is_Some (seenTraces !! fileline fr)) →
  count_occ item_eq_dec (traceItems frames false seenTraces).1 Elision = 1.
Proof.
  revert seenTraces. induction frames as [|fr frames IH]; intros seenTraces (fr' & Hin & Hseen).
  { by apply elem_of_nil in Hin. }
  rewrite traceItems_cons. destruct (seenTraces !! fileline fr) as [b|] eqn:Hfr; cbn [fst].
  - by rewrite count_occ_cons_eq, traceItems_elided.
  - rewrite count_occ_cons_neq by done. apply IH. exists fr'.
    apply elem_of_cons in Hin as [->|Hin]; [by rewrite Hfr in Hseen; destruct Hseen|].
    split; [done|]. destruct (decide (fileline fr = fileline fr')) as [->|Hne].
    + rewrite lookup_insert_eq. eauto.
    + by rewrite lookup_insert_ne.
Qed.

Lemma traceItems_plain (frames : list frame) (ellipsis : bool) (seenTraces : gmap string bool) :
  count_occ item_eq_dec (traceItems frames ellipsis seenTraces).1 Separator = 0 ∧
  messages (traceItems frames ellipsis seenTraces).1 = [].
Proof.
  revert ellipsis seenTraces.
  induction frames as [|fr frames IH]; intros ellipsis seenTraces; [done|].
  rewrite traceItems_cons. destruct (seenTraces !! fileline fr); cbn [fst].
  - destruct ellipsis; [apply IH|].
    rewrite count_occ_cons_neq by done. apply IH.
  - rewrite count_occ_cons_neq by done. apply IH.
Qed.

(** The same for the stack trace of an instance. *)
Lemma traceLines_spec (stackTrace : list frame) (seenTraces : gmap string bool) :
  let items := (traceLines stackTrace seenTraces).1 in
  let seenTraces' := (traceLines stackTrace seenTraces).2 in
  NoDup (printed items) ∧
  (∀ key, key ∈ printed items → seenTraces !! key = None) ∧
  (∀ key, is_Some (seenTraces' !! key) ↔ is_Some (seenTraces !! key) ∨ key ∈ printed items) ∧
  (∀ fr, fr ∈ stackTrace → is_Some (seenTraces' !! fileline fr)) ∧
  ((∃ fr, fr ∈ stackTrace ∧ is_Some (seenTraces !! fileline fr)) →
     count_occ item_eq_dec items Elision = 1) ∧
  count_occ item_eq_dec items Separator = 0 ∧
  messages items = [].
Proof.
  cbn zeta. unfold traceLines. destruct stackTrace as [|fr0 frames].
  { cbn. split; [constructor|]. split; [by intros ? ?%elem_of_nil|].
    split; [|split; [by intros ? ?%elem_of_nil|split; [|done]]].
    - intros key. split; [auto|]. by intros [?|?%elem_of_nil].
    - by intros (? & ?%elem_of_nil & _). }
  destruct (traceItems_spec (reverse (fr0 :: frames)) false seenTraces)
    as (Hnodup & Hfresh & Hiff & Hcovers).
  repeat split; try done; try apply Hiff; try apply traceItems_plain.
  - intros fr Hin. by apply Hcovers, elem_of_reverse.
  - intros (fr & Hin & Hseen). apply traceItems_elision. exists fr.
    by rewrite elem_of_reverse.
Qed.

Lemma ownItems_unfold (self : Error) (seenTraces : gmap string bool) (level : nat) :
  ownItems self seenTraces level =
  ((traceLines (stackTrace self) seenTraces).1 ++ [MessageLine (message self)] ++
   (if (0 <? mapLen (extra self))%nat
    then [ExtraLine (foldl extraPair "" (rangeOf (InStringReport level) (extra self)))]
    else []),
   (traceLines (stackTrace self) seenTraces).2).
Proof. unfold ownItems. by destruct (traceLines _ _). Qed.

Lemma ownItems_spec (self : Error) (seenTraces : gmap string bool) (level : nat) :
  let items := (ownItems self seenTraces level).1 in
  let seenTraces' := (ownItems self seenTraces level).2 in
  NoDup (printed items) ∧
  (∀ key, key ∈ printed items → seenTraces !! key = None) ∧
  (∀ key, is_Some (seenTraces' !! key) ↔ is_Some (seenTraces !! key) ∨ key ∈ printed items) ∧
  (∀ fr, fr ∈ stackTrace self → is_Some (seenTraces' !! fileline fr)) ∧
  ((∃ fr, fr ∈ stackTrace self ∧ is_Some (seenTraces !! fileline fr)) →
     count_occ item_eq_dec items Elision = 1) ∧
  count_occ item_eq_dec items Separator = 0 ∧
  messages items = [message self].
Proof.
  cbn zeta. rewrite ownItems_unfold. cbn [fst snd].
  destruct (traceLines_spec (stackTrace self) seenTraces)
    as (Hnodup & Hfresh & Hiff & Hcovers & Helision & Hsep & Hmsg).
  set (trace := (traceLines (stackTrace self) seenTraces).1) in *.
  assert (printed (trace ++ [MessageLine (message self)] ++
            (if (0 <? mapLen (extra self))%nat
             then [ExtraLine (foldl extraPair ""
                                (rangeOf (InStringReport level) (extra self)))]
             else [])) = printed trace) as ->.
  { rewrite printed_app. destruct (0 <? mapLen (extra self))%nat; cbn;
      by rewrite (right_id_L [] (++)). }
  repeat split; try done; try apply Hiff.
  - intros Hrepeat. rewrite count_occ_app, Helision by done.
    by destruct (0 <? mapLen (extra self))%nat.
  - rewrite count_occ_app, Hsep. by destruct (0 <? mapLen (extra self))%nat.
  - unfold messages in *. rewrite omap_app, Hmsg.
    by destruct (0 <? mapLen (extra self))%nat.
Qed.

Lemma instances_unfold (self : Error) :
  instances self =
  self ::
  match cause self with
  | EVal c => instances c
  | EPtr c => instances c
  | _ => []
  end.
Proof. by destruct self. Qed.

Lemma printed_section (own rest : list item) :
  printed ((own ++ [Separator]) ++ rest) = printed own ++ printed rest.
Proof. by rewrite <-(assoc_L (++)), printed_app. Qed.

(** Along a whole chain: each location is printed at most once, none that
    was seen before the report started, and every location of every stack
    trace of the chain ends up in the set. *)
Lemma sections_spec (self : Error) (seenTraces : gmap string bool) (level : nat) :
  let items := concat (sections self true seenTraces level).1 in
  let seenTraces' := (sections self true seenTraces level).2 in
  NoDup (printed items) ∧
  (∀ key, key ∈ printed items → seenTraces !! key = None) ∧
  (∀ key, is_Some (seenTraces' !! key) ↔ is_Some (seenTraces !! key) ∨ key ∈ printed items) ∧
  (∀ inst fr, inst ∈ instances self → fr ∈ stackTrace inst →
              is_Some (seenTraces' !! fileline fr)).
Proof.
  cbn zeta. revert seenTraces level.
  induction self as [e He|e c He IH|e c He IH|e f He] using Error_chain_ind;
    intros seenTraces level; rewrite sections_unfold, instances_unfold, He; cbn zeta;
    destruct (ownItems_spec e seenTraces level) as (Hnodup & Hfresh & Hiff & Hcovers & _);
    cbn [fst snd concat].
  - rewrite (right_id_L [] (++)). repeat split; try done; try apply Hiff.
    intros inst fr ->%list_elem_of_singleton. apply Hcovers.
  - destruct (IH (ownItems e seenTraces level).2 (S level))
      as (Hnodup' & Hfresh' & Hiff' & Hcovers').
    rewrite printed_section. split; [|split; [|split]].
    + apply NoDup_app. split; [done|]. split; [|done].
      intros key Hown Hrest%Hfresh'.
      assert (is_Some ((ownItems e seenTraces level).2 !! key)) as [? ?]
        by (apply Hiff; auto).
      congruence.
    + intros key [Hown|Hrest%Hfresh']%elem_of_app; [by apply Hfresh|].
      destruct (seenTraces !! key) eqn:Hkey; [|done].
      assert (is_Some ((ownItems e seenTraces level).2 !! key)) as [? ?]
        by (apply Hiff; eauto).
      congruence.
    + intros key. rewrite Hiff', Hiff, elem_of_app. tauto.
    + intros inst fr [->|Hin]%elem_of_cons Hfr; [|by eapply Hcovers'].
      apply Hiff'. left. by apply Hcovers.
  - destruct (IH (ownItems e seenTraces level).2 (S level))
      as (Hnodup' & Hfresh' & Hiff' & Hcovers').
    rewrite printed_section. split; [|split; [|split]].
    + apply NoDup_app. split; [done|]. split; [|done].
      intros key Hown Hrest%Hfresh'.
      assert (is_Some ((ownItems e seenTraces level).2 !! key)) as [? ?]
        by (apply Hiff; auto).
      congruence.
    + intros key [Hown|Hrest%Hfresh']%elem_of_app; [by apply Hfresh|].
      destruct (seenTraces !! key) eqn:Hkey; [|done].
      assert (is_Some ((ownItems e seenTraces level).2 !! key)) as [? ?]
        by (apply Hiff; eauto).
      congruence.
    + intros key. rewrite Hiff', Hiff, elem_of_app. tauto.
    + intros inst fr [->|Hin]%elem_of_cons Hfr; [|by eapply Hcovers'].
      apply Hiff'. left. by apply Hcovers.
  - rewrite (right_id_L [] (++)), printed_section.
    change (printed [NoTrace; ForeignLine _ _]) with (@nil string).
    rewrite (right_id_L [] (++)).
    repeat split; try done; try apply Hiff.
    intros inst fr ->%list_elem_of_singleton. apply Hcovers.
Qed.

(** The section of the instance at position [j] of the chain is what that
    instance writes on a set that holds every location of the stack traces
    before it. *)
Lemma sections_section (self : Error) (seenTraces : gmap string bool) (level : nat)
    (j : nat) (inner : Error) :
  instances self !! j = Some inner →
  ∃ seen_j,
    ((sections self true seenTraces level).1 !! j
     = Some (ownItems inner seen_j (j + level)).1 ∨
     (sections self true seenTraces level).1 !! j
     = Some ((ownItems inner seen_j (j + level)).1 ++ [Separator])) ∧
    (∀ key, is_Some (seenTraces !! key) → is_Some (seen_j !! key)) ∧
    (∀ i outer fr, i < j → instances self !! i = Some outer → fr ∈ stackTrace outer →
                   is_Some (seen_j !! fileline fr)).
Proof.
  revert seenTraces level j.
  induction self as [e He|e c He IH|e c He IH|e f He] using Error_chain_ind;
    intros seenTraces level j; rewrite sections_unfold, instances_unfold, He; cbn zeta;
    cbn [fst]; rewrite !lookup_cons; destruct j as [|j];
    try (intros [= <-]; exists seenTraces; split; [auto|split; [done|intros; lia]]);
    try (intros Hnil; by rewrite lookup_nil in Hnil);
    intros Hinner;
    destruct (IH (ownItems e seenTraces level).2 (S level) j Hinner)
      as (seen_j & Hsec & Hmono & Hbefore);
    rewrite Nat.add_succ_r in Hsec;
    destruct (ownItems_spec e seenTraces level) as (_ & _ & Hiff & Hcovers & _);
    exists seen_j; (split; [done|]); (split; [intros key Hkey; apply Hmono, Hiff; auto|]);
    intros i outer fr Hi; rewrite lookup_cons; destruct i as [|i];
    [intros [= <-] Hfr; by apply Hmono, Hcovers
    |intros Houter Hfr; eapply Hbefore; [|done..]; lia
    |intros [= <-] Hfr; by apply Hmono, Hcovers
    |intros Houter Hfr; eapply Hbefore; [|done..]; lia].
Qed.

(** C6: in [StringReport(true)] the set of seen locations is shared along
    the chain and keyed by [file:line]: when the stack traces of two
    instances of the chain hold a frame with the same [file:line], that
    location is printed exactly once in the whole report, and the section of
    the inner instance does not print it but carries the elision marker
    ["[...]"], once.  A location is printed as the line of its [file:line]
    followed by the line of its function. *)
Theorem StringReport_deduplicates (self : Error) (i j : nat) (outer inner : Error)
    (fo fi : frame) :
  i < j →
  instances self !! i = Some outer →
  instances self !! j = Some inner →
  fo ∈ stackTrace outer →
  fi ∈ stackTrace inner →
  file fo +:+ ":" +:+ Itoa (line fo) = file fi +:+ ":" +:+ Itoa (line fi) →
  let location := file fo +:+ ":" +:+ Itoa (line fo) in
  let secs := (sections self true ∅ 0).1 in
  StringReport self [true] = header self +:+ render (concat secs) ∧
  (∀ key, is_Some ((stringReport self true ∅ 0).2 !! key) ↔ key ∈ printed (concat secs)) ∧
  count_occ string_dec (printed (concat secs)) location = 1 ∧
  (∃ sec, secs !! j = Some sec ∧
          (location ∉ printed sec) ∧
          count_occ item_eq_dec sec Elision = 1) ∧
  render [Location location (function fo)]
  = "    " +:+ file fo +:+ ":" +:+ Itoa (line fo) +:+ LF +:+
    "        " +:+ function fo +:+ LF ∧
  render [Elision] = "    [...]" +:+ LF.
Proof.
  intros Hij Houter Hinner Hfo Hfi Hkey. cbn zeta.
  change (fileline fo = fileline fi) in Hkey.
  change (file fo +:+ ":" +:+ Itoa (line fo)) with (fileline fo).
  destruct (sections_spec self ∅ 0) as (Hnodup & _ & Hiff & Hcovers).
  split; [by rewrite StringReport_sections|]. split; [|split; [|split]].
  - intros key. rewrite stringReport_sections. cbn [snd]. rewrite Hiff, lookup_empty.
    split; [by intros [[? [=]]|?]|auto].
  - apply NoDup_ListNoDup in Hnodup.
    apply (proj1 (NoDup_count_occ' string_dec _) Hnodup), list_elem_of_In.
    assert (is_Some ((sections self true ∅ 0).2 !! fileline fo)) as Hseen.
    { eapply Hcovers; [|done]. by eapply list_elem_of_lookup_2. }
    apply Hiff in Hseen as [[? Hempty]|?]; [|done]. by rewrite lookup_empty in Hempty.
  - destruct (sections_section self ∅ 0 j inner Hinner) as (seen_j & Hsec & _ & Hbefore).
    specialize (Hbefore i outer fo Hij Houter Hfo).
    destruct (ownItems_spec inner seen_j (j + 0)) as (_ & Hfresh & _ & _ & Helision & _).
    assert (fileline fo ∉ printed (ownItems inner seen_j (j + 0)).1) as Hnot.
    { intros Hin%Hfresh. rewrite Hin in Hbefore. by destruct Hbefore. }
    assert (count_occ item_eq_dec (ownItems inner seen_j (j + 0)).1 Elision = 1) as Hone.
    { apply Helision. exists fi. by rewrite <-Hkey. }
    destruct Hsec as [Hsec|Hsec]; eexists; (split; [exact Hsec|]).
    + done.
    + rewrite printed_app, count_occ_app, Hone.
      change (printed [Separator]) with (@nil string).
      by rewrite (right_id_L [] (++)).
  - split; [|done]. unfold render, fileline. cbn [foldr renderItem].
    by rewrite append_nil_r, !append_assoc.
Qed.

(** *** Separators and message sections *)

Lemma depth_unfold (self : Error) :
  depth self =
  S match cause self with
    | ENil => 0
    | EVal c => depth c
    | EPtr c => depth c
    | EForeign _ => 1
    end.
Proof. unfold depth. destruct self as [k m msg [|c|c|f] x st cap t]; cbn; lia. Qed.

(** A full report has one separator per causal link and one message per
    link, in the order of the chain. *)
Lemma sections_links (self : Error) (seenTraces : gmap string bool) (level : nat) :
  S (count_occ item_eq_dec (concat (sections self true seenTraces level).1) Separator)
  = depth self ∧
  messages (concat (sections self true seenTraces level).1) = linkMessage <$> links self.
Proof.
  revert seenTraces level.
  induction self as [e He|e c He IH|e c He IH|e f He] using Error_chain_ind;
    intros seenTraces level; rewrite sections_unfold, depth_unfold, links_unfold, He;
    cbn zeta;
    destruct (ownItems_spec e seenTraces level) as (_ & _ & _ & _ & _ & Hsep & Hmsg);
    cbn [fst concat]; unfold messages in *;
    rewrite ?(right_id_L [] (++)), ?count_occ_app, ?omap_app, Hsep, Hmsg.
  - done.
  - destruct (IH (ownItems e seenTraces level).2 (S level)) as [<- ->]. done.
  - destruct (IH (ownItems e seenTraces level).2 (S level)) as [<- ->]. done.
  - done.
Qed.

(** A report of the first error only is the receiver's own section. *)
Lemma sections_first (self : Error) (seenTraces : gmap string bool) (level : nat) :
  (sections self false seenTraces level).1 = [(ownItems self seenTraces level).1] ∧
  count_occ item_eq_dec (concat (sections self false seenTraces level).1) Separator = 0 ∧
  messages (concat (sections self false seenTraces level).1) = [message self].
Proof.
  rewrite sections_unfold. cbn [fst concat]. rewrite (right_id_L [] (++)).
  destruct (ownItems_spec self seenTraces level) as (_ & _ & _ & _ & _ & Hsep & Hmsg).
  done.
Qed.

(** C7: [StringReport(true)] on a chain of an instance, an instance and a
    foreign error shows three messages and two separators, one per causal
    link, as it does on every chain: the report is the header, the
    receiver's own section, the line ["Caused by the following error:"]
    between two line feeds, the own section of the cause, that separator
    again, and the section of the foreign error.  [StringReport(false)] shows
    the receiver's message only and no separator: it is the header and the
    receiver's own section, nothing of the cause. *)
Theorem StringReport_separators (outer inner : Error) (leaf : foreign) (byValue : bool) :
  let attach : Error → error := if byValue then EVal else EPtr in
  let middle := Cause (EForeign leaf) inner in
  let chain := Cause (attach middle) outer in
  let full := concat (sections chain true ∅ 0).1 in
  let first := concat (sections chain false ∅ 0).1 in
  let separator := LF +:+ "Caused by the following error:" +:+ LF in
  let own1 := (ownItems chain ∅ 0).1 in
  let own2 := (ownItems middle (ownItems chain ∅ 0).2 1).1 in
  let leafSection :=
    [NoTrace; ForeignLine (foreignError leaf) (TrimPrefix (typeName (dynType leaf)) "*")] in
  (StringReport chain [true] = header chain +:+ render full ∧
   messages full = [message outer; message inner; foreignError leaf] ∧
   count_occ item_eq_dec full Separator = 2 ∧
   full = own1 ++ [Separator] ++ own2 ++ [Separator] ++ leafSection ∧
   count_occ item_eq_dec own1 Separator = 0 ∧
   count_occ item_eq_dec own2 Separator = 0 ∧
   StringReport chain [true]
   = header chain +:+ render own1 +:+ separator +:+ render own2 +:+ separator +:+
     render leafSection) ∧
  (StringReport chain [false] = header chain +:+ render first ∧
   messages first = [message outer] ∧
   count_occ item_eq_dec first Separator = 0 ∧
   first = own1 ∧
   StringReport chain [false] = header chain +:+ render own1) ∧
  (∀ self : Error,
     count_occ item_eq_dec (concat (sections self true ∅ 0).1) Separator = depth self - 1 ∧
     messages (concat (sections self true ∅ 0).1) = linkMessage <$> links self ∧
     count_occ item_eq_dec (concat (sections self false ∅ 0).1) Separator = 0).
Proof.
  intros attach middle chain full first separator own1 own2 leafSection.
  assert (full = own1 ++ [Separator] ++ own2 ++ [Separator] ++ leafSection) as Hfull.
  { unfold full. rewrite sections_unfold. cbn zeta. fold own1.
    assert (cause chain = attach middle) as Hcause by done.
    assert (∀ seenTraces,
              concat (sections middle true seenTraces 1).1
              = (ownItems middle seenTraces 1).1 ++ [Separator] ++ leafSection) as Hmiddle.
    { intros seenTraces. rewrite sections_unfold. cbn zeta.
      change (cause middle) with (EForeign (E:=Error) leaf). cbn [fst concat].
      by rewrite (right_id_L [] (++)), <-(assoc_L (++)). }
    rewrite Hcause. unfold attach. destruct byValue; cbn [fst concat];
      by rewrite Hmiddle, <-!(assoc_L (++)). }
  assert (first = own1) as Hfirst.
  { unfold first. destruct (sections_first chain ∅ 0) as (-> & _). cbn [concat].
    apply (right_id_L [] (++)). }
  split; [|split].
  - split; [by rewrite StringReport_sections|].
    destruct (sections_links chain ∅ 0) as [Hsep Hmsg]. fold full in Hsep, Hmsg.
    split; [by rewrite Hmsg; unfold chain, attach; destruct byValue|].
    split; [apply eq_add_S; rewrite Hsep; unfold chain, attach; by destruct byValue|].
    split; [done|].
    destruct (ownItems_spec chain ∅ 0) as (_ & _ & _ & _ & _ & Hsep1 & _).
    destruct (ownItems_spec middle (ownItems chain ∅ 0).2 1)
      as (_ & _ & _ & _ & _ & Hsep2 & _).
    split; [done|]. split; [done|].
    transitivity (header chain +:+ render full); [by rewrite StringReport_sections|].
    rewrite Hfull, !render_app.
    by replace (render [Separator]) with separator by (symmetry; apply append_nil_r).
  - split; [by rewrite StringReport_sections|].
    destruct (sections_first chain ∅ 0) as (_ & Hsep & Hmsg).
    split; [done|]. split; [done|]. split; [done|].
    transitivity (header chain +:+ render first); [by rewrite StringReport_sections|].
    by rewrite Hfirst.
  - intros self. destruct (sections_links self ∅ 0) as [<- ->].
    split; [lia|]. split; [done|]. apply sections_first.
Qed.

(** *** Format *)

(** The verb [s] and every unknown verb write [String]; [v] writes the
    report of the first error, [+v] the report of all errors. *)
Lemma Format_verbs (self : Error) (plus : bool) (verb : ascii) :
  Format self plus "s" = String_ self ∧
  Format self false "v" = StringReport self [false] ∧
  Format self true "v" = StringReport self [true] ∧
  (verb ≠ "s"%char → verb ≠ "v"%char → Format self plus verb = String_ self).
Proof.
  repeat split; try done.
  intros Hs Hv. unfold Format. by rewrite !decide_False.
Qed.

(** ** Further properties of the package *)

(** *** New and Raise *)

Lemma prefix_dot (c : ascii) (s : string) :
  String.prefix "." (String c s) = bool_decide (c = "."%char).
Proof.
  cbn [String.prefix]. destruct (ascii_dec "." c) as [<-|Hne].
  - destruct s; by rewrite bool_decide_eq_true_2.
  - rewrite bool_decide_eq_false_2; congruence.
Qed.

Lemma LastIndex_dot_none (s : string) :
  hasByte "." s = false → LastIndex s "." = (-1)%Z.
Proof.
  induction s as [|c s IH]; [done|].
  cbn [hasByte LastIndex]. intros [Hc Hs]%orb_false_elim.
  by rewrite (IH Hs), prefix_dot, Hc.
Qed.

Lemma LastIndex_dot_last (a name : string) :
  hasByte "." name = false →
  LastIndex (a +:+ "." +:+ name) "." = Z.of_nat (String.length a).
Proof.
  intros Hname. induction a as [|c a IH].
  - change ("" +:+ "." +:+ name) with (String "." name).
    cbn [LastIndex]. by rewrite (LastIndex_dot_none name Hname), prefix_dot.
  - rewrite append_cons. cbn [LastIndex String.length]. rewrite IH.
    destruct (0 <=? Z.of_nat (String.length a))%Z eqn:Hle; [lia|].
    apply Z.leb_gt in Hle. lia.
Qed.

Lemma substring_append (a b : string) :
  String.substring 0 (String.length a) (a +:+ b) = a.
Proof.
  induction a as [|c a IH]; [by destruct b|].
  rewrite append_cons. cbn. by rewrite IH.
Qed.

(** X1: [New] takes as module the caller's function name up to its last
    dot, and ["unknown"] when the name has no dot or the runtime reports no
    caller; the template has the format as kind and as message, no cause, no
    stack trace and nil maps, and captures stack traces unless the first
    optional argument says otherwise. *)
Theorem New_template (message : string) (capture : list bool) (pkg name : string) :
  hasByte "." name = false →
  let template := New message capture (Some (pkg +:+ "." +:+ name)) in
  module template = pkg ∧
  module (New message capture (Some name)) = "unknown" ∧
  module (New message capture None) = "unknown" ∧
  kind template = message ∧
  Errors.message template = message ∧
  cause template = ENil ∧
  extra template = None ∧
  tags template = None ∧
  stackTrace template = [] ∧
  captureStackTrace template = default true (head capture).
Proof.
  intros Hname. cbn zeta. unfold New. cbn [module kind Errors.message cause extra tags
    stackTrace captureStackTrace].
  rewrite (LastIndex_dot_last pkg name Hname), (LastIndex_dot_none name Hname).
  split.
  { destruct (0 <=? Z.of_nat (String.length pkg))%Z eqn:Hle.
    - by rewrite Nat2Z.id, substring_append.
    - apply Z.leb_gt in Hle. lia. }
  repeat split; try done. by destruct capture.
Qed.

(** X2: [Raise] builds a fresh instance whatever the receiver holds: the
    receiver's kind, module and capture flag, its message formatted, no
    cause, two empty maps that can be written, and as stack trace the first
    [_MAX_FRAMES] callers at most, innermost first, or none without
    capture. *)
Theorem Raise_instance (self : Error) (args : list any) (callers : list frame) :
  let e := Raise self args callers in
  kind e = kind self ∧ module e = module self ∧
  captureStackTrace e = captureStackTrace self ∧
  message e = Sprintf (message self) args ∧
  cause e = ENil ∧ extra e = Some ∅ ∧ tags e = Some ∅ ∧
  stackTrace e `prefix_of` callers ∧
  (length (stackTrace e) ≤ 100)%nat ∧
  length (stackTrace e)
  = (if captureStackTrace self then length callers `min` 100 else 0)%nat ∧
  (∀ key value, ∃ e', Extra {[key := value]} e = Ok e').
Proof.
  cbn zeta. unfold Raise. cbn [kind module captureStackTrace message cause extra tags stackTrace].
  change (Z.to_nat _MAX_FRAMES) with 100%nat.
  repeat split; try done.
  - destruct (captureStackTrace self); [apply prefix_take|apply prefix_nil].
  - destruct (captureStackTrace self); [rewrite length_take|cbn]; lia.
  - destruct (captureStackTrace self); [rewrite length_take; lia|done].
  - intros key value. unfold Extra. cbn [extra]. rewrite assign_fold_plain. eauto.
Qed.

(** *** Identity *)

(** X3: [Is] is an equivalence on the instances of the package, the same
    for a value and for a pointer; it holds of no foreign error and not of
    nil. *)
Theorem Is_equivalence (a b c : Error) (f : foreign) :
  Is a (EPtr a) = true ∧
  Is a (EPtr b) = Is b (EPtr a) ∧
  (Is a (EPtr b) = true → Is b (EPtr c) = true → Is a (EPtr c) = true) ∧
  Is a (EVal b) = Is a (EPtr b) ∧
  Is a (EForeign f) = false ∧
  Is a ENil = false.
Proof.
  cbn. repeat split; try done.
  - by rewrite !bool_decide_eq_true_2.
  - apply eq_true_iff_eq. rewrite !andb_true_iff, !bool_decide_eq_true. intuition congruence.
  - rewrite !andb_true_iff, !bool_decide_eq_true. intuition congruence.
Qed.

Lemma raisedFrom_identity (template e : Error) :
  raisedFrom template e → kind e = kind template ∧ module e = module template.
Proof.
  induction 1 as [| n e e' _ IH Hs | | x e e' _ IH Hx | | t e e' _ IH Ht]; cbn; try done.
  - unfold Skip in Hs. destruct (captureStackTrace e); [|by injection Hs as <-].
    destruct (sliceFrom _ _); [|done]. by injection Hs as <-.
  - unfold Extra in Hx. destruct (foldl _ _ _); [|done]. by injection Hx as <-.
  - unfold Tags in Ht. destruct (foldl _ _ _); [|done]. by injection Ht as <-.
Qed.

(** X4: the mutators never change what an instance is: whatever [Skip],
    [With], [Extra], [Cause] and [Tags] did to it since it was raised, the
    instance [Is] its template, the template [Is] the instance, and any two
    instances raised from one template are the same error. *)
Theorem raised_keeps_identity (template e e' : Error) :
  raisedFrom template e →
  raisedFrom template e' →
  Is template (EPtr e) = true ∧
  Is e (EVal template) = true ∧
  Is e (EPtr e') = true.
Proof.
  intros [Hk Hm]%raisedFrom_identity [Hk' Hm']%raisedFrom_identity. cbn.
  rewrite Hk, Hm, Hk', Hm'. by rewrite !bool_decide_eq_true_2.
Qed.

(** *** Membership *)





(** *** The flattened line *)

Lemma joinWith_cons (sep text : string) (rest : list string) :
  rest ≠ [] → joinWith sep (text :: rest) = text +:+ sep +:+ joinWith sep rest.
Proof. by destruct rest. Qed.

(** X8: [String] is the messages of the links of the chain, the receiver's
    first and the foreign error's last, joined by a colon and a space. *)
Theorem String_joins_links (self : Error) :
  String_ self = joinWith ": " (linkMessage <$> links self) ∧
  Error_ self = String_ self.
Proof.
  split; [|done].
  induction self as [e He|e c He IH|e c He IH|e f He] using Error_chain_ind;
    rewrite String_unfold, links_unfold, He, fmap_cons.
  - cbn. apply append_nil_r.
  - rewrite joinWith_cons by (rewrite links_unfold; done). by rewrite IH.
  - rewrite joinWith_cons by (rewrite links_unfold; done). by rewrite IH.
  - done.
Qed.

(** *** How the mutators compose *)

Lemma assign_fold_fault {V W : Type} (f : V → W) (l : list (string * V)) (p : panic) :
  foldl (λ acc kv, entries ← acc; mapAssign kv.1 (f kv.2) entries) (Fault p) l = Fault p.
Proof. induction l as [|kv l IH]; [done|]. cbn. apply IH. Qed.

Lemma assign_fold_nil {V W : Type} (f : V → W) (l : list (string * V)) :
  foldl (λ acc kv, entries ← acc; mapAssign kv.1 (f kv.2) entries) (Ok None) l
  = match l with
    | [] => Ok None
    | _ :: _ => Fault AssignmentToNilMap
    end.
Proof. destruct l as [|kv l]; [done|]. cbn. apply assign_fold_fault. Qed.

Lemma range_empty (s : site) (V : Type) (m : gmap string V) : range s V m = [] ↔ m = ∅.
Proof.
  split.
  - intros Hnil. apply map_to_list_empty_iff, Permutation_nil_r.
    by rewrite <-range_perm, Hnil.
  - intros ->. apply Permutation_nil_r. by rewrite range_perm, map_to_list_empty.
Qed.

Lemma merge_fold {V W : Type} (s : site) (f : V → W) (pairs : gmap string V)
    (m : option (gmap string W)) :
  foldl (λ acc kv, entries ← acc; mapAssign kv.1 (f kv.2) entries) (Ok m) (range s V pairs)
  = match m with
    | Some entries => Ok (Some ((f <$> pairs) ∪ entries))
    | None => if decide (pairs = ∅) then Ok None else Fault AssignmentToNilMap
    end.
Proof.
  destruct m as [entries|].
  - rewrite assign_fold. do 2 f_equal. apply map_eq. intros key.
    rewrite range_lookup, lookup_union, lookup_fmap.
    by destruct (pairs !! key), (entries !! key).
  - rewrite assign_fold_nil. destruct (range s V pairs) as [|kv l] eqn:Hrange.
    + apply range_empty in Hrange. by rewrite decide_True.
    + rewrite decide_False; [done|]. intros Hempty%(range_empty s). congruence.
Qed.

Lemma Extra_closed (pairs : gmap string any) (e : Error) :
  Extra pairs e
  = match extra e with
    | Some entries => Ok (setExtra (Some (pairs ∪ entries)) e)
    | None => if decide (pairs = ∅) then Ok e else Fault AssignmentToNilMap
    end.
Proof.
  unfold Extra. pose proof (merge_fold InExtra id pairs (extra e)) as Hfold.
  rewrite map_fmap_id in Hfold. unfold id in Hfold. rewrite Hfold.
  destruct (extra e) eqn:He; [done|]. case_decide; [|done].
  destruct e; cbn in *; by subst.
Qed.

Lemma Tags_closed (pairs : gmap string any) (e : Error) :
  Tags pairs e
  = match tags e with
    | Some entries =>
        Ok (setTags (Some (((λ value, Sprintf "%v" [value]) <$> pairs) ∪ entries)) e)
    | None => if decide (pairs = ∅) then Ok e else Fault AssignmentToNilMap
    end.
Proof.
  unfold Tags. rewrite (merge_fold InTags (λ value, Sprintf "%v" [value])).
  destruct (tags e) eqn:He; [done|]. case_decide; [|done].
  destruct e; cbn in *; by subst.
Qed.

(** X9: the mutators touch one field each, so they may be called in any
    order: [Cause] commutes with [With], both commute with [Skip], [Extra]
    and [Tags], which pass a fault through unchanged, and [Extra] commutes
    with [Tags]; of two [Cause] calls the later one wins. *)
Theorem mutators_commute (e : Error) (format : string) (args : list any)
    (c c' : error) (n : Z) (pairs labels : gmap string any) :
  With format args (Cause c e) = Cause c (With format args e) ∧
  Cause c' (Cause c e) = Cause c' e ∧
  Skip n (With format args e) = (e' ← Skip n e; mret (With format args e')) ∧
  Skip n (Cause c e) = (e' ← Skip n e; mret (Cause c e')) ∧
  Extra pairs (With format args e) = (e' ← Extra pairs e; mret (With format args e')) ∧
  Extra pairs (Cause c e) = (e' ← Extra pairs e; mret (Cause c e')) ∧
  Tags labels (With format args e) = (e' ← Tags labels e; mret (With format args e')) ∧
  Tags labels (Cause c e) = (e' ← Tags labels e; mret (Cause c e')) ∧
  (e' ← Extra pairs e; Tags labels e') = (e' ← Tags labels e; Extra pairs e').
Proof.
  split; [done|]. split; [done|].
  split; [|split].
  1, 2: unfold Skip; cbn [With Cause setMessage setCause captureStackTrace stackTrace];
    destruct (captureStackTrace e); [|done]; by destruct (sliceFrom _ _).
  split; [|split].
  1, 2: rewrite !Extra_closed; cbn [With Cause setMessage setCause extra];
    destruct (extra e); [done|]; by case_decide.
  split; [|split].
  1, 2: rewrite !Tags_closed; cbn [With Cause setMessage setCause tags];
    destruct (tags e); [done|]; by case_decide.
  rewrite !Extra_closed, !Tags_closed.
  destruct (extra e) as [x|] eqn:Hx, (tags e) as [t|] eqn:Ht; cbn;
    rewrite ?Extra_closed, ?Tags_closed; cbn; rewrite ?Hx, ?Ht; try done;
    repeat case_decide; cbn; rewrite ?Extra_closed, ?Tags_closed, ?Hx, ?Ht;
    try done; by rewrite ?decide_True, ?decide_False by done.
Qed.

(** X10: skipping [a] frames and then [b] frames is skipping [a + b]
    frames, faults included, for counts that are not negative; skipping no
    frame changes nothing. *)
Theorem Skip_composes (e : Error) (a b : Z) :
  (0 ≤ a)%Z → (0 ≤ b)%Z →
  (e' ← Skip a e; Skip b e') = Skip (a + b) e ∧
  Skip 0 e = Ok e.
Proof.
  intros Ha Hb. split.
  - unfold Skip, sliceFrom. destruct (captureStackTrace e) eqn:Hcapture; cbn;
      [|by rewrite Hcapture].
    destruct (decide (0 ≤ a ≤ Z.of_nat (length (stackTrace e)))%Z) as [Hin|Hout]; cbn.
    + rewrite length_drop.
      destruct (decide (0 ≤ b ≤ Z.of_nat (length (stackTrace e) - Z.to_nat a))%Z); cbn.
      * rewrite decide_True by lia. cbn.
        by rewrite Hcapture, drop_drop, Z2Nat.inj_add by lia.
      * rewrite Hcapture. by rewrite decide_False by lia.
    + by rewrite decide_False by lia.
  - unfold Skip, sliceFrom. destruct e as [k m msg c x st cap t]. cbn.
    destruct cap; [|done]. by rewrite decide_True by lia.
Qed.

(** X11: on an instance whose map is nil, as a template's are, [Extra] and
    [Tags] fault with an assignment to a nil map as soon as they are given
    one pair, and leave the instance as it is when given none. *)
Theorem merge_into_nil_map (e : Error) (pairs : gmap string any) :
  extra e = None → tags e = None →
  Extra pairs e = (if decide (pairs = ∅) then Ok e else Fault AssignmentToNilMap) ∧
  Tags pairs e = (if decide (pairs = ∅) then Ok e else Fault AssignmentToNilMap).
Proof. intros Hx Ht. by rewrite Extra_closed, Tags_closed, Hx, Ht. Qed.

(** X12: on an instance whose maps are allocated, [Extra] leaves the union
    of the given pairs with the entries held, the given pairs first, and
    [Tags] the same with every value rendered under [%v], whatever order the
    pairs are visited in; two merges in a row are one merge of the union,
    the later pairs first, faults included. *)
Theorem merge_is_union (e : Error) (pairs later : gmap string any) :
  (∀ entries, extra e = Some entries →
     Extra pairs e = Ok (setExtra (Some (pairs ∪ entries)) e)) ∧
  (∀ entries, tags e = Some entries →
     Tags pairs e
     = Ok (setTags (Some (((λ value, Sprintf "%v" [value]) <$> pairs) ∪ entries)) e)) ∧
  (e' ← Extra pairs e; Extra later e') = Extra (later ∪ pairs) e ∧
  (e' ← Tags pairs e; Tags later e') = Tags (later ∪ pairs) e.
Proof.
  split; [|split; [|split]].
  - intros entries Hx. by rewrite Extra_closed, Hx.
  - intros entries Ht. by rewrite Tags_closed, Ht.
  - rewrite !Extra_closed. destruct (extra e) as [x|] eqn:Hx; cbn.
    + rewrite Extra_closed. cbn. by rewrite (assoc_L (∪)).
    + destruct (decide (pairs = ∅)) as [->|Hne]; cbn.
      * rewrite Extra_closed, Hx, (right_id_L ∅ (∪)). done.
      * rewrite decide_False; [done|]. intros Hempty.
        apply Hne, map_eq. intros key. rewrite lookup_empty.
        apply (f_equal (λ m : gmap string any, m !! key)) in Hempty.
        rewrite lookup_union, lookup_empty in Hempty.
        by destruct (later !! key), (pairs !! key).
  - rewrite !Tags_closed. destruct (tags e) as [t|] eqn:Ht; cbn.
    + rewrite Tags_closed. cbn. by rewrite map_fmap_union, (assoc_L (∪)).
    + destruct (decide (pairs = ∅)) as [->|Hne]; cbn.
      * rewrite Tags_closed, Ht, (right_id_L ∅ (∪)). done.
      * rewrite decide_False; [done|]. intros Hempty.
        apply Hne, map_eq. intros key. rewrite lookup_empty.
        apply (f_equal (λ m : gmap string any, m !! key)) in Hempty.
        rewrite lookup_union, lookup_empty in Hempty.
        by destruct (later !! key), (pairs !! key).
Qed.

(** *** The stack trace in a report *)

Lemma traceReport_lines (stackTrace : list frame) (seenTraces : gmap string bool) :
  traceReport stackTrace seenTraces
  = (render (traceLines stackTrace seenTraces).1, (traceLines stackTrace seenTraces).2).
Proof.
  unfold traceReport, traceLines. destruct stackTrace as [|fr frames]; [done|].
  cbn [length Nat.ltb Nat.leb].
  destruct (traceStep_items (reverse (fr :: frames)) "" false seenTraces) as [ell ->].
  done.
Qed.

Lemma freshTrace_cons (fr : frame) (frames : list frame) (seenTraces : gmap string bool) :
  freshTrace (fr :: frames) seenTraces ↔
  seenTraces !! fileline fr = None ∧
  freshTrace frames (<[fileline fr := true]> seenTraces).
Proof.
  unfold freshTrace. rewrite fmap_cons, NoDup_cons, Forall_cons, !Forall_forall. split.
  - intros [[Hnew Hnodup] [Hfr Hrest]]. split; [done|]. split; [done|].
    intros x Hx. apply lookup_insert_None. split; [by apply Hrest|].
    intros Hkey. apply Hnew, list_elem_of_fmap. eauto.
  - intros [Hfr [Hnodup Hrest]]. split; [split; [|done]|split; [done|]].
    + intros (x & Hkey & Hin)%list_elem_of_fmap. specialize (Hrest x Hin).
      apply lookup_insert_None in Hrest as [_ Hne]. congruence.
    + intros x Hx. apply (Hrest x) in Hx. by apply lookup_insert_None in Hx as [? _].
Qed.

Lemma freshTrace_reverse (stackTrace : list frame) (seenTraces : gmap string bool) :
  freshTrace (reverse stackTrace) seenTraces ↔ freshTrace stackTrace seenTraces.
Proof.
  unfold freshTrace. by rewrite fmap_reverse, reverse_Permutation, Forall_reverse.
Qed.

Lemma traceItems_fresh (frames : list frame) (ellipsis : bool) (seenTraces : gmap string bool) :
  freshTrace frames seenTraces →
  (traceItems frames ellipsis seenTraces).1 = locationOf <$> frames.
Proof.
  revert seenTraces. induction frames as [|fr frames IH]; intros seenTraces; [done|].
  intros [Hfr Hfresh]%freshTrace_cons. rewrite traceItems_cons, Hfr. cbn [fst].
  by rewrite IH.
Qed.

Lemma traceItems_repeat (frames : list frame) (seenTraces : gmap string bool) :
  ¬ freshTrace frames seenTraces →
  count_occ item_eq_dec (traceItems frames false seenTraces).1 Elision = 1.
Proof.
  revert seenTraces. induction frames as [|fr frames IH]; intros seenTraces Hrepeat.
  { destruct Hrepeat. split; constructor. }
  rewrite traceItems_cons. destruct (seenTraces !! fileline fr) as [b|] eqn:Hfr; cbn [fst].
  - by rewrite count_occ_cons_eq, traceItems_elided.
  - rewrite count_occ_cons_neq by done. apply IH. intros Hfresh.
    apply Hrepeat, freshTrace_cons. done.
Qed.

Lemma traceItems_all_seen (frames : list frame) (ellipsis : bool)
    (seenTraces : gmap string bool) :
  Forall (λ fr, is_Some (seenTraces !! fileline fr)) frames →
  traceItems frames ellipsis seenTraces
  = (match frames with
     | [] => []
     | _ :: _ => if ellipsis then [] else [Elision]
     end, seenTraces).
Proof.
  revert ellipsis. induction frames as [|fr frames IH]; intros ellipsis; [done|].
  intros [[b Hfr] Hrest]%Forall_cons. rewrite traceItems_cons, Hfr, (IH true Hrest).
  by destruct frames, ellipsis.
Qed.

Lemma locations_no_elision (frames : list frame) :
  count_occ item_eq_dec (locationOf <$> frames) Elision = 0.
Proof.
  induction frames as [|fr frames IH]; [done|].
  cbn [fmap list_fmap]. by rewrite count_occ_cons_neq.
Qed.

(** X13: a stack trace whose locations are pairwise distinct and were not
    seen before is printed whole, from the last captured frame to the first,
    two lines a frame and no elision marker; the set of seen locations gains
    exactly its locations.  An instance without frames prints the line that
    says so and leaves the set as it is. *)
Theorem fresh_trace_is_printed (stackTrace : list frame) (seenTraces : gmap string bool) :
  freshTrace stackTrace seenTraces →
  (traceReport stackTrace seenTraces).1
  = render match stackTrace with
           | [] => [NoTrace]
           | _ :: _ => locationOf <$> reverse stackTrace
           end ∧
  (∀ key, is_Some ((traceReport stackTrace seenTraces).2 !! key)
          ↔ is_Some (seenTraces !! key) ∨ key ∈ fileline <$> stackTrace) ∧
  traceReport [] seenTraces = (render [NoTrace], seenTraces).
Proof.
  intros Hfresh. rewrite traceReport_lines. cbn [fst snd]. split; [|split; [|done]].
  - unfold traceLines. destruct stackTrace as [|fr frames]; [done|].
    by rewrite traceItems_fresh by (by apply freshTrace_reverse).
  - intros key. destruct (traceLines_spec stackTrace seenTraces) as (_ & _ & Hiff & _).
    rewrite Hiff. unfold traceLines. destruct stackTrace as [|fr frames].
    { cbn. by split; intros [?|?%elem_of_nil]; auto. }
    rewrite traceItems_fresh by (by apply freshTrace_reverse).
    replace (printed (locationOf <$> reverse (fr :: frames)))
      with (fileline <$> reverse (fr :: frames)).
    + by rewrite fmap_reverse, elem_of_reverse.
    + unfold printed. induction (reverse (fr :: frames)) as [|x l IH]; [done|].
      cbn. by rewrite IH.
Qed.

(** X14: the section of an instance carries the elision marker once when
    one of its locations was seen before or stands twice in its stack trace,
    and not at all otherwise; when every location was seen before, the
    marker is all that is printed of the stack trace. *)
Theorem elision_marker (stackTrace : list frame) (seenTraces : gmap string bool) :
  let items := (traceLines stackTrace seenTraces).1 in
  (traceReport stackTrace seenTraces).1 = render items ∧
  (freshTrace stackTrace seenTraces → count_occ item_eq_dec items Elision = 0) ∧
  (¬ freshTrace stackTrace seenTraces → count_occ item_eq_dec items Elision = 1) ∧
  (stackTrace ≠ [] →
   Forall (λ fr, is_Some (seenTraces !! fileline fr)) stackTrace →
   traceReport stackTrace seenTraces = (render [Elision], seenTraces)).
Proof.
  cbn zeta. rewrite traceReport_lines. cbn [fst]. split; [done|].
  unfold traceLines. destruct stackTrace as [|fr frames].
  { split; [done|]. split; [|done]. intros Hrepeat. destruct Hrepeat. split; constructor. }
  split; [|split].
  - intros Hfresh%freshTrace_reverse. rewrite traceItems_fresh by done.
    apply locations_no_elision.
  - intros Hrepeat. apply traceItems_repeat. by rewrite freshTrace_reverse.
  - intros _ Hseen. rewrite traceItems_all_seen by (by apply Forall_reverse).
    destruct (reverse (fr :: frames)) eqn:Hrev; [|done].
    apply (f_equal length) in Hrev. by rewrite length_reverse in Hrev.
Qed.

(** *** The event *)

Lemma snoc_fold {A B : Type} (g : A → B) (l : list A) (init : list B) :
  foldl (λ acc a, acc ++ [g a]) init l = init ++ (g <$> l).
Proof.
  revert init. induction l as [|a l IH]; intros init; cbn [foldl].
  - by rewrite fmap_nil, (right_id_L [] (++)).
  - by rewrite IH, fmap_cons, <-(assoc_L (++)).
Qed.

Lemma sentryFrames_reverse (stackTrace : list frame) :
  sentryFrames stackTrace
  = match stackTrace with
    | [] => None
    | _ :: _ => Some (sentryFrame <$> reverse stackTrace)
    end.
Proof.
  unfold sentryFrames. destruct stackTrace as [|fr frames]; [done|].
  cbn [length Nat.ltb Nat.leb]. f_equal. apply (snoc_fold sentryFrame).
Qed.

(** X16: the exception record of the receiver, the last of the event,
    carries its kind, its flattened line, its module and its stack trace
    turned round, the last captured frame first: the frame at index
    [len - 1 - i] is what [sentry.NewFrame] returns for the [runtime.Frame]
    holding the function, the file and the line of the frame captured at
    index [i], whatever [sentry.NewFrame] makes of them; an instance without
    frames has no stack trace in the event. *)
Theorem event_stack_is_reversed (self : Error) (i : nat) (fr : frame) :
  stackTrace self !! i = Some fr →
  ∃ frames,
    last (Sentry.Exceptions (SentryReport self))
    = Some (Sentry.mkException (kind self) (String_ self) (module self) (Some frames)) ∧
    frames = (λ fr, NewFrame (mkRuntimeFrame (function fr) (file fr) (line fr)))
             <$> reverse (stackTrace self) ∧
    length frames = length (stackTrace self) ∧
    frames !! (length (stackTrace self) - S i)
    = Some (NewFrame (mkRuntimeFrame (function fr) (file fr) (line fr))) ∧
    sentryFrames [] = None.
Proof.
  intros Hfr. exists (sentryFrame <$> reverse (stackTrace self)).
  unfold SentryReport. rewrite sentryReport_appends, links_unfold, fmap_cons, reverse_cons.
  rewrite (assoc_L (++)), last_snoc. cbn [exceptionOf].
  rewrite sentryFrames_reverse.
  assert (i < length (stackTrace self))%nat as Hi by (by eapply lookup_lt_Some).
  destruct (stackTrace self) as [|fr0 frames] eqn:Hst; [cbn in Hi; lia|].
  split; [done|]. split; [done|]. split; [by rewrite length_fmap, length_reverse|].
  split; [|done].
  rewrite list_lookup_fmap, reverse_lookup by lia.
  replace (length (fr0 :: frames) - S (length (fr0 :: frames) - S i))%nat with i by lia.
  by rewrite Hfr.
Qed.

Lemma assignExtra_fold (l : list (string * any)) (report : Sentry.Event SentryFrame) :
  Sentry.Extra (foldl assignExtra report l)
  = foldl (λ entries kv, <[kv.1 := kv.2]> entries) (Sentry.Extra report) l ∧
  Sentry.Tags (foldl assignExtra report l) = Sentry.Tags report.
Proof.
  revert report. induction l as [|kv l IH]; intros report; [done|].
  cbn [foldl]. by destruct (IH (assignExtra report kv)) as [-> ->].
Qed.

Lemma assignTag_fold (l : list (string * string)) (report : Sentry.Event SentryFrame) :
  Sentry.Tags (foldl assignTag report l)
  = foldl (λ entries kv, <[kv.1 := kv.2]> entries) (Sentry.Tags report) l ∧
  Sentry.Extra (foldl assignTag report l) = Sentry.Extra report.
Proof.
  revert report. induction l as [|kv l IH]; intros report; [done|].
  cbn [foldl]. by destruct (IH (assignTag report kv)) as [-> ->].
Qed.

Lemma rangeOf_lookup {V : Type} (s : site) (m : option (gmap string V))
    (entries : gmap string V) (key : string) :
  foldl (λ entries kv, <[kv.1 := kv.2]> entries) entries (rangeOf s m) !! key
  = match entry m key with
    | Some value => Some value
    | None => entries !! key
    end.
Proof. destruct m as [pairs|]; [apply range_lookup_plain|done]. Qed.

Lemma sentryReport_entries (self : Error) (report : Sentry.Event SentryFrame) (level : nat)
    (key : string) :
  Sentry.Extra (sentryReport self report level) !! key
  = match firstEntry extra (instances self) key with
    | Some value => Some value
    | None => Sentry.Extra report !! key
    end ∧
  Sentry.Tags (sentryReport self report level) !! key
  = match firstEntry tags (instances self) key with
    | Some value => Some value
    | None => Sentry.Tags report !! key
    end.
Proof.
  revert report level.
  induction self as [e He|e c He IH|e c He IH|e f He] using Error_chain_ind;
    intros report level; rewrite sentryReport_unfold, instances_unfold, He;
    cbn [firstEntry appendException Sentry.Extra Sentry.Tags];
    destruct (assignTag_fold (rangeOf (InSentryTags level) (tags e))
                (foldl assignExtra
                   match cause e with
                   | ENil => report
                   | EVal c => sentryReport c report (S level)
                   | EPtr c => sentryReport c report (S level)
                   | EForeign f => appendException (exceptionOf (Leaf f)) report
                   end (rangeOf (InSentryExtra level) (extra e)))) as [Ht Hx];
    rewrite He in Ht, Hx; rewrite Ht, Hx;
    match goal with
    | |- context [foldl assignExtra ?r ?l] =>
        destruct (assignExtra_fold l r) as [-> ->]
    end;
    rewrite !rangeOf_lookup; destruct (entry (extra e) key), (entry (tags e) key);
    try done; try (by destruct (IH report (S level)) as [-> ->]);
    try (by destruct (IH report (S level)) as [-> _]);
    try (by destruct (IH report (S level)) as [_ ->]).
Qed.

(** X17: in the event an extra entry or a tag set on an instance wins over
    the entry its causes set under the same key: the event holds, for every
    key, what the outermost instance that has the key holds; the tag
    [package] is the receiver's module unless an instance of the chain sets
    a tag of that name. *)
Theorem event_entries_outermost_first (self : Error) (key : string) :
  Sentry.Extra (SentryReport self) !! key = firstEntry extra (instances self) key ∧
  Sentry.Tags (SentryReport self) !! key
  = match firstEntry tags (instances self) key with
    | Some value => Some value
    | None => if decide (key = "package") then Some (module self) else None
    end.
Proof.
  unfold SentryReport.
  match goal with
  | |- context [sentryReport self ?r 0] =>
      destruct (sentryReport_entries self r 0 key) as [-> ->]
  end.
  cbn [Sentry.Extra Sentry.Tags Sentry.NewEvent]. rewrite lookup_empty.
  split; [by destruct (firstEntry extra _ _)|].
  destruct (firstEntry tags _ _); [done|]. case_decide as Hkey.
  - by rewrite Hkey, lookup_insert_eq.
  - by rewrite lookup_insert_ne.
Qed.

(** *** The message of the event *)

Lemma hasByte_append (c : ascii) (a b : string) :
  hasByte c (a +:+ b) = hasByte c a || hasByte c b.
Proof.
  induction a as [|x a IH]; [done|].
  rewrite append_cons. cbn [hasByte]. by rewrite IH, orb_assoc.
Qed.

Lemma escapeFree_append (a b : string) :
  escapeFree (a +:+ b) ↔ escapeFree a ∧ escapeFree b.
Proof. unfold escapeFree. rewrite hasByte_append. apply orb_false_iff. Qed.

Lemma escapeFree_uint (d : Decimal.uint) : escapeFree (NilEmpty.string_of_uint d).
Proof. unfold escapeFree. induction d; cbn [NilEmpty.string_of_uint hasByte]; by rewrite ?IHd. Qed.

Lemma escapeFree_Itoa (i : Z) : escapeFree (Itoa i).
Proof.
  unfold Itoa, NilZero.string_of_int, NilZero.string_of_uint.
  destruct (Z.to_int i) as [d|d]; destruct d; try done;
    try apply (escapeFree_uint (Decimal.D0 _)); try apply (escapeFree_uint (Decimal.D1 _));
    try apply (escapeFree_uint (Decimal.D2 _)); try apply (escapeFree_uint (Decimal.D3 _));
    try apply (escapeFree_uint (Decimal.D4 _)); try apply (escapeFree_uint (Decimal.D5 _));
    try apply (escapeFree_uint (Decimal.D6 _)); try apply (escapeFree_uint (Decimal.D7 _));
    try apply (escapeFree_uint (Decimal.D8 _)); try apply (escapeFree_uint (Decimal.D9 _));
    unfold escapeFree; cbn [hasByte]; rewrite escapeFree_uint; done.
Qed.

Lemma escapeFree_substring (s : string) (n m : nat) :
  escapeFree s → escapeFree (String.substring n m s).
Proof.
  unfold escapeFree. revert n m. induction s as [|c s IH]; intros n m.
  { by destruct n, m. }
  cbn [hasByte]. intros [Hc Hs]%orb_false_elim.
  destruct n as [|n]; cbn [String.substring].
  - destruct m as [|m]; [done|]. cbn [hasByte]. by rewrite Hc, IH.
  - by apply IH.
Qed.

Lemma escapeFree_TrimPrefix (s prefix : string) :
  escapeFree s → escapeFree (TrimPrefix s prefix).
Proof.
  intros Hs. unfold TrimPrefix. destruct (String.prefix prefix s); [|done].
  by apply escapeFree_substring.
Qed.

(** The scanner copies text without the escape byte. *)
Lemma strip_text (a b : string) :
  escapeFree a → stripFrom Plain (a +:+ b) = a +:+ stripFrom Plain b.
Proof.
  unfold escapeFree. induction a as [|c a IH]; [done|].
  cbn [hasByte]. intros [Hc Ha]%orb_false_elim. apply bool_decide_eq_false in Hc.
  rewrite !append_cons. cbn [stripFrom]. rewrite decide_False by done.
  by rewrite IH.
Qed.

Lemma strip_colours (b : string) :
  stripFrom Plain (ESC +:+ "[0;31m" +:+ b) = stripFrom Plain b ∧
  stripFrom Plain (ESC +:+ "[1;91m" +:+ b) = stripFrom Plain b ∧
  stripFrom Plain (ESC +:+ "[0m" +:+ b) = stripFrom Plain b ∧
  stripFrom Plain (ESC +:+ "[0m (" +:+ b) = " (" +:+ stripFrom Plain b.
Proof. done. Qed.

Lemma strip_item (i : item) (b : string) :
  plainItemTexts i →
  stripFrom Plain (renderItem i +:+ b) = plainItem i +:+ stripFrom Plain b.
Proof.
  destruct i as [fl fn| | |m|p| |m ty]; cbn [plainItemTexts renderItem plainItem].
  - intros [Hfl Hfn]. apply strip_text. by rewrite !escapeFree_append.
  - intros _. by apply strip_text.
  - intros _. by apply strip_text.
  - intros Hm. rewrite !append_assoc.
    rewrite (proj1 (strip_colours _)), (strip_text m) by done.
    rewrite (proj1 (proj2 (proj2 (strip_colours _)))). by rewrite (strip_text LF).
  - intros Hp. apply strip_text. by rewrite !escapeFree_append.
  - intros _. by apply strip_text.
  - intros [Hm Hty]. rewrite !append_assoc.
    rewrite (proj1 (strip_colours _)), (strip_text m) by done.
    rewrite (proj2 (proj2 (proj2 (strip_colours _)))).
    rewrite (strip_text ty) by done. by rewrite (strip_text ")"), (strip_text LF).
Qed.

Lemma strip_render (items : list item) (b : string) :
  Forall plainItemTexts items →
  stripFrom Plain (render items +:+ b) = plainText items +:+ stripFrom Plain b.
Proof.
  induction 1 as [|i items Hi _ IH]; [done|].
  rewrite render_cons, append_assoc, strip_item by done.
  cbn [plainText foldr]. fold (plainText items). by rewrite IH, append_assoc.
Qed.

Lemma plainText_escapeFree (items : list item) :
  Forall plainItemTexts items → escapeFree (plainText items).
Proof.
  induction 1 as [|i items Hi _ IH]; [done|].
  cbn [plainText foldr]. fold (plainText items). apply escapeFree_append. split; [|done].
  destruct i; cbn [plainItem renderItem plainItemTexts] in *;
    rewrite ?escapeFree_append; repeat split; try done; apply Hi.
Qed.

Lemma traceItems_texts (frames : list frame) (ellipsis : bool) (seenTraces : gmap string bool) :
  Forall (λ fr, escapeFree (file fr) ∧ escapeFree (function fr)) frames →
  Forall plainItemTexts (traceItems frames ellipsis seenTraces).1.
Proof.
  intros Hframes. revert ellipsis seenTraces.
  induction Hframes as [|fr frames [Hfile Hfn] _ IH]; intros ellipsis seenTraces.
  { constructor. }
  rewrite traceItems_cons. destruct (seenTraces !! fileline fr); cbn [fst].
  - destruct ellipsis; [apply IH|]. constructor; [done|apply IH].
  - constructor; [|apply IH]. split; [|done].
    unfold fileline. rewrite !escapeFree_append. split; [done|].
    split; [done|apply escapeFree_Itoa].
Qed.

Lemma extraPair_escapeFree (l : list (string * any)) (report : string) :
  escapeFree report →
  Forall (λ kv, escapeFree kv.1 ∧ escapeFree (Sprintf "%v" [kv.2])) l →
  escapeFree (foldl extraPair report l).
Proof.
  intros Hreport Hl. revert report Hreport.
  induction Hl as [|kv l [Hk Hv] _ IH]; intros report Hreport; [done|].
  cbn [foldl]. apply IH. unfold extraPair. by rewrite !escapeFree_append.
Qed.

Lemma rangeOf_entry {V : Type} (s : site) (m : option (gmap string V)) (kv : string * V) :
  kv ∈ rangeOf s m → entry m kv.1 = Some kv.2.
Proof.
  destruct m as [pairs|]; cbn; [|by intros ?%elem_of_nil].
  rewrite range_perm. destruct kv as [k v]. by intros ?%elem_of_map_to_list.
Qed.

Lemma ownItems_texts (e : Error) (seenTraces : gmap string bool) (level : nat) :
  plainInstance e → Forall plainItemTexts (ownItems e seenTraces level).1.
Proof.
  intros (Hmessage & Hframes & Hextra). rewrite ownItems_unfold. cbn [fst].
  apply Forall_app. split.
  - unfold traceLines. destruct (stackTrace e) as [|fr frames] eqn:Hst.
    + by constructor.
    + apply traceItems_texts. by apply Forall_reverse.
  - constructor; [done|]. destruct (0 <? mapLen (extra e))%nat; constructor; [|done].
    apply extraPair_escapeFree; [done|]. apply Forall_forall.
    intros kv Hkv%rangeOf_entry. by apply Hextra.
Qed.

Lemma plainChain_unfold (self : Error) :
  plainChain self ↔
  plainInstance self ∧
  match cause self with
  | ENil => True
  | EVal c => plainChain c
  | EPtr c => plainChain c
  | EForeign f => escapeFree (foreignError f) ∧ escapeFree (typeName (dynType f))
  end.
Proof.
  unfold plainChain. rewrite instances_unfold, Forall_cons.
  destruct self as [k m msg [|c|c|f] x st cap t]; cbn [cause foreignLeaf].
  - split.
    + intros [[Hown _] _]. split; [exact Hown|exact I].
    + intros [Hown _]. split; [split; [exact Hown|constructor]|]. by intros f [=].
  - tauto.
  - tauto.
  - split.
    + intros [[Hown _] Hleaf]. split; [exact Hown|]. by apply Hleaf.
    + intros [Hown Hleaf]. split; [split; [exact Hown|constructor]|]. by intros ? [= <-].
Qed.

Lemma sections_texts (self : Error) (seenTraces : gmap string bool) (level : nat) :
  plainChain self → Forall plainItemTexts (concat (sections self true seenTraces level).1).
Proof.
  revert seenTraces level.
  induction self as [e He|e c He IH|e c He IH|e f He] using Error_chain_ind;
    intros seenTraces level [Hown Hcause]%plainChain_unfold;
    rewrite He in Hcause; rewrite sections_unfold, He; cbn zeta; cbn [fst concat];
    pose proof (ownItems_texts e seenTraces level Hown) as Hitems.
  - by rewrite (right_id_L [] (++)).
  - rewrite !Forall_app. split; [split; [done|by constructor]|]. by apply IH.
  - rewrite !Forall_app. split; [split; [done|by constructor]|]. by apply IH.
  - rewrite !Forall_app. split; [split; [done|by constructor]|].
    split; [|constructor]. constructor; [done|]. constructor; [|constructor].
    destruct Hcause as [Hmsg Hty]. split; [done|]. by apply escapeFree_TrimPrefix.
Qed.

Lemma String_escapeFree (self : Error) : plainChain self → escapeFree (String_ self).
Proof.
  induction self as [e He|e c He IH|e c He IH|e f He] using Error_chain_ind;
    intros [(Hmessage & _) Hcause]%plainChain_unfold; rewrite He in Hcause;
    rewrite String_unfold, He, !escapeFree_append; repeat split; try done;
    try by apply IH. apply Hcause.
Qed.

Lemma sentryReport_message (self : Error) (report : Sentry.Event SentryFrame) (level : nat) :
  Sentry.Message (sentryReport self report level) = Sentry.Message report ∧
  Sentry.EventLevel (sentryReport self report level) = Sentry.EventLevel report.
Proof.
  assert (∀ l r, Sentry.Message (foldl assignExtra r l) = Sentry.Message r ∧
                 Sentry.EventLevel (foldl assignExtra r l) = Sentry.EventLevel r) as Hextra.
  { induction l as [|kv l IH]; intros r; [done|]. cbn [foldl].
    by destruct (IH (assignExtra r kv)) as [-> ->]. }
  assert (∀ l r, Sentry.Message (foldl assignTag r l) = Sentry.Message r ∧
                 Sentry.EventLevel (foldl assignTag r l) = Sentry.EventLevel r) as Htags.
  { induction l as [|kv l IH]; intros r; [done|]. cbn [foldl].
    by destruct (IH (assignTag r kv)) as [-> ->]. }
  revert report level.
  induction self as [e He|e c He IH|e c He IH|e f He] using Error_chain_ind;
    intros report level; rewrite sentryReport_unfold, He;
    cbn [appendException Sentry.Message Sentry.EventLevel];
    match goal with
    | |- context [foldl assignTag ?r ?l] => destruct (Htags l r) as [-> ->]
    end;
    match goal with
    | |- context [foldl assignExtra ?r ?l] => destruct (Hextra l r) as [-> ->]
    end; try done; apply IH.
Qed.

(** X18: for a chain none of whose texts holds the escape byte, the message
    of the event is the report of all errors with its colour sequences, and
    nothing else, taken out: the flattened line, the title and every section
    in plain text; no escape byte is left in it, and the level of the event
    is [error]. *)
Theorem event_message_is_plain (self : Error) :
  plainChain self →
  Sentry.Message (SentryReport self)
  = plainHeader self +:+ plainText (concat (sections self true ∅ 0).1) ∧
  escapeFree (Sentry.Message (SentryReport self)) ∧
  Sentry.EventLevel (SentryReport self) = Sentry.LevelError.
Proof.
  intros Hplain. unfold SentryReport.
  match goal with
  | |- context [sentryReport self ?r 0] =>
      destruct (sentryReport_message self r 0) as [-> ->]
  end.
  cbn [Sentry.Message Sentry.EventLevel].
  pose proof (sections_texts self ∅ 0 Hplain) as Hitems.
  pose proof (String_escapeFree self Hplain) as Hline.
  assert (stripAnsiColor (StringReport self [])
          = plainHeader self +:+ plainText (concat (sections self true ∅ 0).1)) as ->.
  { unfold stripAnsiColor. rewrite StringReport_sections. cbn [head default].
    unfold header, plainHeader. rewrite !append_assoc.
    rewrite (proj1 (proj2 (strip_colours _))), (strip_text (String_ self)) by done.
    rewrite (proj1 (proj2 (proj2 (strip_colours _)))).
    rewrite (strip_text LF), (strip_text LF) by done.
    rewrite (strip_text "Traceback (most recent call last):"), (strip_text LF) by done.
    rewrite <-(append_nil_r (render _)), strip_render by done.
    cbn [stripFrom]. by rewrite append_nil_r. }
  split; [done|]. split; [|done].
  unfold plainHeader. rewrite !escapeFree_append. repeat split; try done.
  by apply plainText_escapeFree.
Qed.

(** *** Marshalling *)

Lemma jsonStringBody_safe (a rest : string) :
  jsonSafe a = true → jsonStringBody (a +:+ rest) = jsonStringBody rest.
Proof.
  induction a as [|c a IH]; [done|].
  cbn [jsonSafe]. rewrite !andb_true_iff, !negb_true_iff, !bool_decide_eq_false.
  intros [[[Hquote Hslash] Hcontrol] Ha].
  rewrite append_cons. cbn [jsonStringBody].
  rewrite !decide_False by done. rewrite Hcontrol. by apply IH.
Qed.

(** X19: [MarshalText] and [MarshalJSON] never fail; [MarshalJSON] puts the
    flattened line between two quotation marks without escaping anything:
    what it returns is a JSON string when the line holds no quotation mark,
    reverse solidus or control character, and is not one when the line holds
    a quotation mark or a control character, a line feed say, after text
    that needs no escaping. *)
Theorem MarshalJSON_does_not_escape (self : Error) (a b : string) (c : ascii) :
  jsonSafe a = true →
  MarshalText self = (String_ self, ENil) ∧
  (MarshalJSON self).2 = ENil ∧
  (String_ self = a → isJSONString (MarshalJSON self).1 = true) ∧
  (String_ self = a +:+ QUOTE +:+ b → isJSONString (MarshalJSON self).1 = false) ∧
  (isControl c = true → String_ self = a +:+ String c b →
   isJSONString (MarshalJSON self).1 = false).
Proof.
  intros Ha. split; [done|]. split; [done|].
  unfold MarshalJSON. cbn [fst].
  change (isJSONString (QUOTE +:+ ?x)) with (jsonStringBody x).
  split; [|split].
  - intros ->. by rewrite jsonStringBody_safe.
  - intros ->. rewrite !append_assoc, jsonStringBody_safe by done.
    change (jsonStringBody (QUOTE +:+ ?x)) with (bool_decide (x = "")).
    apply bool_decide_eq_false. by destruct b.
  - intros Hc ->. rewrite !append_assoc, jsonStringBody_safe by done.
    rewrite append_cons. cbn [jsonStringBody].
    destruct (decide (c = "034"%char)) as [->|_]; [done|].
    destruct (decide (c = "\"%char)) as [->|_]; [done|]. by rewrite Hc.
Qed.

(** *** The earlier revision *)

(** X20: in the earlier revision [Raise] captures the stack trace the
    template asks for but leaves [captureStackTrace] false on the instance,
    so [Skip] returns every raised instance as it is, whatever the count,
    and never faults on one. *)
Theorem Earlier_Skip_is_inert (template : Earlier.Error) (args : list any)
    (callers : list frame) (n : Z) :
  let e := Earlier.Raise template args callers in
  Earlier.Skip n e = Ok e ∧
  Earlier.captureStackTrace e = false ∧
  Earlier.stackTrace e
  = (if Earlier.captureStackTrace template then take (Z.to_nat _MAX_FRAMES) callers else []) ∧
  (Earlier.captureStackTrace template = true → (length callers ≤ 100)%nat →
   Earlier.stackTrace e = callers).
Proof.
  cbn zeta. repeat split. intros Hcapture Hlen.
  cbn. rewrite Hcapture. by apply take_ge.
Qed.

(** X21: in the earlier revision [Is] looks at the kind alone: it returns
    true exactly for an [Error] or a [*Error] of the receiver's kind, so
    templates declared with one format anywhere, and the instances raised
    from them, are the same error. *)
Theorem Earlier_Is_by_kind (self : Earlier.Error) (candidate : iface Earlier.Error)
    (message : string) (capture capture' : list bool) (args : list any)
    (callers : list frame) :
  (Earlier.Is self candidate = true ↔
   ∃ other, (candidate = EVal other ∨ candidate = EPtr other) ∧
            Earlier.kind self = Earlier.kind other) ∧
  Earlier.Is (Earlier.New message capture) (EVal (Earlier.New message capture')) = true ∧
  Earlier.Is (Earlier.New message capture)
    (EPtr (Earlier.Raise (Earlier.New message capture') args callers)) = true.
Proof.
  split; [apply Earlier_Is_kind|]. cbn. by rewrite !bool_decide_eq_true_2.
Qed.

End Package.

(** ** The properties at the errors of the test *)

Lemma mapOrder_perm : visitsOnce mapOrder.
Proof. by intros s V m. Qed.

Lemma reverseOrder_perm : visitsOnce reverseOrder.
Proof. intros s V m. apply reverse_Permutation. Qed.

(** ** Reports of two calls

    The runtime picks the order of the extra entries anew at each call, so
    the texts of two calls are compared under two schedules. *)

(** A map of at most one entry is visited in one way. *)
Lemma rangeOf_small (range range' : schedule) {V : Type} (s s' : site)
    (m : option (gmap string V)) :
  visitsOnce range → visitsOnce range' → mapLen m ≤ 1 →
  rangeOf range s m = rangeOf range' s' m.
Proof.
  intros Hperm Hperm' Hlen. destruct m as [m|]; [|done]. cbn in *.
  pose proof (Hperm s V m) as H1. pose proof (Hperm' s' V m) as H2.
  rewrite <-length_map_to_list in Hlen.
  destruct (map_to_list m) as [|x [|y l]].
  - apply Permutation_nil_r in H1, H2. congruence.
  - apply Permutation_singleton_r in H1, H2. congruence.
  - cbn in Hlen. lia.
Qed.

Lemma ownItems_small (range range' : schedule) (e : Error) (seenTraces : gmap string bool)
    (level : nat) :
  visitsOnce range → visitsOnce range' → mapLen (extra e) ≤ 1 →
  ownItems range e seenTraces level = ownItems range' e seenTraces level.
Proof.
  intros Hperm Hperm' Hlen. rewrite !ownItems_unfold.
  by rewrite (rangeOf_small range range' _ (InStringReport level) (extra e)).
Qed.

Lemma sections_small (range range' : schedule) (self : Error) (all : bool)
    (seenTraces : gmap string bool) (level : nat) :
  visitsOnce range → visitsOnce range' →
  Forall (λ e, mapLen (extra e) ≤ 1) (instances self) →
  sections range self all seenTraces level = sections range' self all seenTraces level.
Proof.
  intros Hperm Hperm'. revert seenTraces level.
  induction self as [e He|e c He IH|e c He IH|e f He] using Error_chain_ind;
    intros seenTraces level; rewrite instances_unfold, He;
    intros [Hlen Hrest]%Forall_cons; rewrite !sections_unfold, He; cbn zeta;
    rewrite (ownItems_small range range' e seenTraces level) by done;
    destruct all; try done; by rewrite IH.
Qed.

(** X15: when the receiver has at most one extra entry, the report of the
    first error is the beginning of the report of all errors, whatever the
    runtime chooses in the two calls, and is the whole of it when the
    receiver has no cause; so is what the verb [v] writes of what [+v]
    writes.  When every instance of the chain has at most one extra entry, a
    report is the same text at every call.  A call without argument reports
    all errors, as the verb [+v] does; [v] reports the receiver's own section
    and every other verb writes the flattened line. *)
Theorem first_report_is_prefix (range range' : schedule) (self : Error) (plus : bool)
    (verb : ascii) :
  visitsOnce range →
  visitsOnce range' →
  (mapLen (extra self) ≤ 1 →
     String.prefix (StringReport range self [false]) (StringReport range' self [true]) = true ∧
     String.prefix (Format range self false "v") (Format range' self true "v") = true ∧
     (cause self = ENil → StringReport range self [false] = StringReport range' self [true])) ∧
  (Forall (λ e, mapLen (extra e) ≤ 1) (instances self) →
     ∀ all, StringReport range self all = StringReport range' self all) ∧
  StringReport range self []
  = header self +:+ render (concat (sections range self true ∅ 0).1) ∧
  Format range self true "v"
  = header self +:+ render (concat (sections range self true ∅ 0).1) ∧
  Format range self false "v" = header self +:+ render (ownItems range self ∅ 0).1 ∧
  (verb ≠ "v"%char → Format range self plus verb = String_ self).
Proof.
  intros Hperm Hperm'. split; [|split; [|split; [|split; [|split]]]].
  - intros Hlen.
    assert (∃ rest, StringReport range' self [true]
                    = StringReport range self [false] +:+ rest ∧
                    (cause self = ENil → rest = "")) as (rest & Hrest & Hnil).
    { rewrite !StringReport_sections. cbn [head default].
      rewrite (sections_unfold range self false), (sections_unfold range' self true).
      cbn zeta. rewrite (ownItems_small range range' self ∅ 0) by done.
      cbn [fst concat]. rewrite (right_id_L [] (++)).
      destruct (cause self) as [|c|c|f]; cbn [fst concat].
      - exists "". by rewrite (right_id_L [] (++)), append_nil_r.
      - eexists. split; [|by intros [=]].
        by rewrite <-(assoc_L (++)), render_app, <-append_assoc.
      - eexists. split; [|by intros [=]].
        by rewrite <-(assoc_L (++)), render_app, <-append_assoc.
      - eexists. split; [|by intros [=]].
        by rewrite <-(assoc_L (++)), render_app, <-append_assoc. }
    split; [rewrite Hrest; apply prefix_append|]. split.
    + change (Format range self false "v") with (StringReport range self [false]).
      change (Format range' self true "v") with (StringReport range' self [true]).
      rewrite Hrest. apply prefix_append.
    + intros Hcause. by rewrite Hrest, (Hnil Hcause), append_nil_r.
  - intros Hall all. rewrite !StringReport_sections.
    by rewrite (sections_small range range').
  - by rewrite StringReport_sections.
  - change (Format range self true "v") with (StringReport range self []).
    by rewrite StringReport_sections.
  - change (Format range self false "v") with (StringReport range self [false]).
    rewrite StringReport_sections. change (default true (head [false])) with false.
    destruct (sections_first range self ∅ 0) as (-> & _). cbn [concat].
    by rewrite (right_id_L [] (++)).
  - intros Hv. unfold Format. rewrite (decide_False (P := verb = "v"%char)) by done.
    by case_decide.
Qed.

(** C1, as the specification states it, fails: [Skip 3] on a raised
    instance with two captured frames faults instead of emptying the trace. *)
Lemma Skip_beyond_frames_faults :
  raised mapOrder (Raise ErrCannotDeposit [] viewCallers) ∧
  captureStackTrace (Raise ErrCannotDeposit [] viewCallers) = true ∧
  (Z.of_nat (length (stackTrace (Raise ErrCannotDeposit [] viewCallers))) < 3)%Z ∧
  Skip 3 (Raise ErrCannotDeposit [] viewCallers) = Fault SliceBoundsOutOfRange ∧
  Skip 3 (Raise ErrCannotDeposit [] viewCallers)
  ≠ Ok (setStackTrace [] (Raise ErrCannotDeposit [] viewCallers)).
Proof.
  split; [apply raised_Raise|]. split; [reflexivity|]. split; [reflexivity|].
  split; [reflexivity|discriminate].
Qed.

Lemma Skip_bounds_witness :
  captureStackTrace (Raise ErrCannotDeposit [] viewCallers) = true ∧
  Skip 1 (Raise ErrCannotDeposit [] viewCallers)
  = Ok (setStackTrace [inTestPrint] (Raise ErrCannotDeposit [] viewCallers)) ∧
  Skip 2 (Raise ErrCannotDeposit [] viewCallers)
  = Ok (setStackTrace [] (Raise ErrCannotDeposit [] viewCallers)) ∧
  Skip 3 (Raise ErrCannotDeposit [] viewCallers) = Fault SliceBoundsOutOfRange.
Proof.
  assert (captureStackTrace (Raise ErrCannotDeposit [] viewCallers) = true) as Hcapture
    by reflexivity.
  split; [exact Hcapture|]. split; [|split].
  - apply (Skip_bounds _ 1 Hcapture). vm_compute. split; discriminate.
  - apply (Skip_bounds _ 2 Hcapture). reflexivity.
  - apply (Skip_bounds _ 3 Hcapture). reflexivity.
Defined.



Lemma StringReport_deduplicates_witness :
  0 < 1 ∧
  instances viewError !! 0 = Some viewError ∧
  instances viewError !! 1 = Some repositoryError ∧
  inTestPrint ∈ stackTrace viewError ∧
  inTestPrint ∈ stackTrace repositoryError ∧
  StringReport mapOrder viewError [true]
  = header viewError +:+ render (concat (sections mapOrder viewError true ∅ 0).1) ∧
  (∀ key, is_Some ((stringReport mapOrder viewError true ∅ 0).2 !! key)
          ↔ key ∈ printed (concat (sections mapOrder viewError true ∅ 0).1)) ∧
  count_occ string_dec (printed (concat (sections mapOrder viewError true ∅ 0).1))
    "errors_test.go:17" = 1 ∧
  ∃ sec, (sections mapOrder viewError true ∅ 0).1 !! 1 = Some sec ∧
         ("errors_test.go:17" ∉ printed sec) ∧
         count_occ item_eq_dec sec Elision = 1.
Proof.
  assert (0 < 1) as H1 by lia.
  assert (instances viewError !! 0 = Some viewError) as H2 by reflexivity.
  assert (instances viewError !! 1 = Some repositoryError) as H3 by reflexivity.
  assert (inTestPrint ∈ stackTrace viewError) as H4
    by (apply list_elem_of_In; vm_compute; tauto).
  assert (inTestPrint ∈ stackTrace repositoryError) as H5
    by (apply list_elem_of_In; vm_compute; tauto).
  assert (file inTestPrint +:+ ":" +:+ Itoa (line inTestPrint)
          = file inTestPrint +:+ ":" +:+ Itoa (line inTestPrint)) as H6 by reflexivity.
  destruct (StringReport_deduplicates mapOrder viewError 0 1 viewError repositoryError
              inTestPrint inTestPrint H1 H2 H3 H4 H5 H6)
    as (Hreport & Hseen & Honce & Helided & _).
  exact (conj H1 (conj H2 (conj H3 (conj H4 (conj H5 (conj Hreport (conj Hseen
    (conj Honce Helided)))))))).
Defined.

Lemma merge_last_write_wins_witness :
  visitsOnce mapOrder ∧
  raised mapOrder (Raise ErrUserNotFound [VString "Alex"] repositoryCallers) ∧
  ∃ e1 e2,
    Extra mapOrder {["userID" := VInt 310700]}
      (Raise ErrUserNotFound [VString "Alex"] repositoryCallers) = Ok e1 ∧
    entry (extra e1) "userID" = Some (VInt 310700) ∧
    Extra mapOrder {["userID" := VInt 42]} e1 = Ok e2 ∧
    entry (extra e2) "userID" = Some (VInt 42).
Proof.
  split; [exact mapOrder_perm|]. split; [apply raised_Raise|].
  destruct (merge_last_write_wins mapOrder mapOrder_perm
              (Raise ErrUserNotFound [VString "Alex"] repositoryCallers)
              {["userID" := VInt 310700]} {["userID" := VInt 42]}
              (raised_Raise mapOrder ErrUserNotFound [VString "Alex"] repositoryCallers))
    as [(e1 & H1 & _ & Hlookup & e2 & H2 & Hlater) _].
  exists e1, e2. split; [exact H1|]. split; [|split; [exact H2|]].
  - rewrite Hlookup. reflexivity.
  - apply Hlater. reflexivity.
Defined.

(** ** The further properties at the errors of the test *)

Lemma New_template_witness :
  hasByte "." "init" = false ∧
  module ErrCannotDeposit = "github.com/neoxelox/errors_test".
Proof.
  assert (hasByte "." "init" = false) as Hname by reflexivity.
  split; [exact Hname|].
  exact (proj1 (New_template "cannot deposit" [] "github.com/neoxelox/errors_test" "init" Hname)).
Defined.

Lemma viewError_raised : raisedFrom mapOrder ErrCannotDeposit viewError.
Proof. apply from_Cause, from_With, from_Raise. Qed.

Lemma raised_keeps_identity_witness :
  raisedFrom mapOrder ErrCannotDeposit viewError ∧
  raisedFrom mapOrder ErrCannotDeposit (Raise ErrCannotDeposit [] []) ∧
  Is ErrCannotDeposit (EPtr viewError) = true ∧
  Is viewError (EVal ErrCannotDeposit) = true ∧
  Is viewError (EPtr (Raise ErrCannotDeposit [] [])) = true.
Proof.
  assert (raisedFrom mapOrder ErrCannotDeposit (Raise ErrCannotDeposit [] [])) as Hfresh
    by apply from_Raise.
  exact (conj viewError_raised (conj Hfresh
    (raised_keeps_identity mapOrder _ _ _ viewError_raised Hfresh))).
Defined.



Lemma mutators_commute_witness :
  visitsOnce mapOrder ∧
  (e' ← Extra mapOrder {["userID" := VInt 310700]} viewError;
   Tags mapOrder {["apiVersion" := VInt 2]} e')
  = (e' ← Tags mapOrder {["apiVersion" := VInt 2]} viewError;
     Extra mapOrder {["userID" := VInt 310700]} e').
Proof.
  split; [exact mapOrder_perm|].
  apply (mutators_commute mapOrder mapOrder_perm viewError "" [] ENil ENil 0
           {["userID" := VInt 310700]} {["apiVersion" := VInt 2]}).
Defined.

Lemma Skip_composes_witness :
  (0 ≤ 1)%Z ∧
  (e' ← Skip 1 viewError; Skip 1 e') = Skip (1 + 1) viewError.
Proof.
  assert (0 ≤ 1)%Z as Hone by discriminate.
  exact (conj Hone (proj1 (Skip_composes viewError 1 1 Hone Hone))).
Defined.

Lemma merge_into_nil_map_witness :
  visitsOnce mapOrder ∧
  extra ErrCannotDeposit = None ∧
  tags ErrCannotDeposit = None ∧
  Extra mapOrder ∅ ErrCannotDeposit = Ok ErrCannotDeposit ∧
  Extra mapOrder {["userID" := VInt 310700]} ErrCannotDeposit = Fault AssignmentToNilMap.
Proof.
  assert (extra ErrCannotDeposit = None) as Hx by reflexivity.
  assert (tags ErrCannotDeposit = None) as Ht by reflexivity.
  split; [exact mapOrder_perm|]. split; [exact Hx|]. split; [exact Ht|]. split.
  - rewrite (proj1 (merge_into_nil_map mapOrder mapOrder_perm ErrCannotDeposit ∅ Hx Ht)).
    by rewrite decide_True.
  - rewrite (proj1 (merge_into_nil_map mapOrder mapOrder_perm ErrCannotDeposit
                      {["userID" := VInt 310700]} Hx Ht)).
    rewrite decide_False; [done|]. apply insert_non_empty.
Defined.

Lemma merge_is_union_witness :
  visitsOnce mapOrder ∧
  (e' ← Extra mapOrder {["userID" := VInt 310700]} viewError;
   Extra mapOrder {["userID" := VInt 42]} e')
  = Extra mapOrder ({["userID" := VInt 42]} ∪ {["userID" := VInt 310700]}) viewError.
Proof.
  split; [exact mapOrder_perm|].
  apply (merge_is_union mapOrder mapOrder_perm viewError).
Defined.

Lemma viewCallers_fresh : freshTrace viewCallers ∅.
Proof.
  split.
  - apply NoDup_ListNoDup. repeat constructor; cbn; intros Hin;
      repeat (destruct Hin as [Hin|Hin]; [discriminate Hin|]); exact Hin.
  - repeat constructor.
Qed.

Lemma fresh_trace_is_printed_witness :
  freshTrace viewCallers ∅ ∧
  (traceReport viewCallers ∅).1 = render (locationOf <$> reverse viewCallers).
Proof.
  exact (conj viewCallers_fresh
    (proj1 (fresh_trace_is_printed viewCallers ∅ viewCallers_fresh))).
Defined.

Lemma event_stack_is_reversed_witness :
  stackTrace viewError !! 1%nat = Some inTestPrint ∧
  ∃ frames,
    last (Sentry.Exceptions (SentryReport mapOrder RuntimeFrame keepFrame viewError))
    = Some (Sentry.mkException (kind viewError) (String_ viewError) (module viewError)
              (Some frames)) ∧
    frames !! 0%nat
    = Some (keepFrame (mkRuntimeFrame "errors_test.TestPrint" "errors_test.go" 17)).
Proof.
  assert (stackTrace viewError !! 1%nat = Some inTestPrint) as Hfr by reflexivity.
  split; [exact Hfr|].
  destruct (event_stack_is_reversed mapOrder RuntimeFrame keepFrame viewError 1
              inTestPrint Hfr)
    as (frames & Hlast & _ & _ & Hframe & _).
  exists frames. exact (conj Hlast Hframe).
Defined.

Lemma event_entries_outermost_first_witness :
  visitsOnce mapOrder ∧
  Sentry.Extra (SentryReport mapOrder RuntimeFrame keepFrame viewError) !! "userID"
  = firstEntry extra (instances viewError) "userID".
Proof.
  split; [exact mapOrder_perm|].
  exact (proj1 (event_entries_outermost_first mapOrder mapOrder_perm RuntimeFrame keepFrame
                  viewError "userID")).
Defined.

Lemma first_report_is_prefix_witness :
  visitsOnce mapOrder ∧
  visitsOnce reverseOrder ∧
  mapLen (extra accountError) ≤ 1 ∧
  String.prefix (StringReport mapOrder accountError [false])
    (StringReport reverseOrder accountError [true]) = true.
Proof.
  assert (mapLen (extra accountError) ≤ 1) as Hlen by (vm_compute; lia).
  destruct (first_report_is_prefix mapOrder reverseOrder accountError false "v"
              mapOrder_perm reverseOrder_perm) as (Hfirst & _).
  exact (conj mapOrder_perm (conj reverseOrder_perm (conj Hlen (proj1 (Hfirst Hlen))))).
Defined.

Lemma viewError_plain : plainChain viewError.
Proof.
  assert (∀ key value, (∅ : gmap string any) !! key = Some value →
                       escapeFree key ∧ escapeFree (Sprintf "%v" [value])) as Hnone.
  { intros key value Hentry. by rewrite lookup_empty in Hentry. }
  split.
  - change (instances viewError) with [viewError; repositoryError].
    constructor; [|constructor; [|constructor]].
    + split; [reflexivity|]. split; [|exact Hnone].
      change (stackTrace viewError) with viewCallers. by repeat constructor.
    + split; [reflexivity|]. split; [|exact Hnone].
      change (stackTrace repositoryError) with repositoryCallers. by repeat constructor.
  - intros f [= <-]. by split.
Qed.

Lemma event_message_is_plain_witness :
  visitsOnce mapOrder ∧
  plainChain viewError ∧
  Sentry.Message (SentryReport mapOrder RuntimeFrame keepFrame viewError)
  = plainHeader viewError +:+ plainText (concat (sections mapOrder viewError true ∅ 0).1) ∧
  escapeFree (Sentry.Message (SentryReport mapOrder RuntimeFrame keepFrame viewError)).
Proof.
  split; [exact mapOrder_perm|]. split; [exact viewError_plain|].
  destruct (event_message_is_plain mapOrder mapOrder_perm RuntimeFrame keepFrame viewError
              viewError_plain)
    as (Hmessage & Hfree & _).
  exact (conj Hmessage Hfree).
Defined.

Lemma MarshalJSON_does_not_escape_witness :
  jsonSafe "cannot say " = true ∧
  isJSONString (MarshalJSON (New "cannot say " [] None)).1 = true ∧
  isJSONString
    (MarshalJSON (Raise (New "cannot say %s" [] None)
                    [VString (QUOTE +:+ "hi" +:+ QUOTE)] [])).1 = false.
Proof.
  assert (jsonSafe "cannot say " = true) as Hsafe by reflexivity.
  split; [exact Hsafe|]. split.
  - destruct (MarshalJSON_does_not_escape (New "cannot say " [] None)
                "cannot say " "" "000" Hsafe) as (_ & _ & Hplain & _).
    apply Hplain. reflexivity.
  - destruct (MarshalJSON_does_not_escape
                (Raise (New "cannot say %s" [] None) [VString (QUOTE +:+ "hi" +:+ QUOTE)] [])
                "cannot say " ("hi" +:+ QUOTE) "000" Hsafe) as (_ & _ & _ & Hquote & _).
    apply Hquote. reflexivity.
Defined.

(** ** The test of the package, on the model *)

(** The checks of [TestPrint]. *)
Example test_checks :
  Is ErrCannotDeposit (EPtr viewError) = true ∧
  Has viewError (EForeign ErrOtherLibrary) = Ok true ∧
  Has viewError (EVal ErrUserNotFound) = Ok true ∧
  Has viewError (EVal ErrCannotDeposit) = Ok true.
Proof. by vm_compute. Qed.

Example test_line :
  Error_ viewError
  = "cannot deposit: cannot add money to account ARN3107: user Alex not found: other library error".
Proof. reflexivity. Qed.

(** The full report of [viewError]: the frame in [TestPrint] is printed in
    the first section and elided in the second. *)
Example test_sections :
  (sections mapOrder viewError true ∅ 0).1
  = [[Location "errors_test.go:17" "errors_test.TestPrint";
      Location "errors_test.go:115" "errors_test.view";
      MessageLine "cannot deposit: cannot add money to account ARN3107";
      Separator];
     [Elision;
      Location "errors_test.go:113" "errors_test.view";
      Location "errors_test.go:124" "errors_test.usecase";
      Location "errors_test.go:135" "errors_test.repository";
      MessageLine "user Alex not found";
      Separator];
     [NoTrace; ForeignLine "other library error" "errors.errorString"]].
Proof. by vm_compute. Qed.

Example test_exceptions :
  Sentry.Type_ <$> Sentry.Exceptions (SentryReport mapOrder RuntimeFrame keepFrame viewError)
  = ["errors.errorString"; "user %s not found"; "cannot deposit"] ∧
  Sentry.Tags (SentryReport mapOrder RuntimeFrame keepFrame viewError) !! "package"
  = Some "github.com/neoxelox/errors_test".
Proof. by vm_compute. Qed.

(** With two extra entries the text of a report depends on the order the
    runtime picks: the reports of the first error of two calls may differ,
    and the one need not begin the full report of the other. *)
Example report_order_matters :
  mapLen (extra sessionError) = 2 ∧
  StringReport mapOrder sessionError [false] ≠ StringReport reverseOrder sessionError [false] ∧
  String.prefix (StringReport mapOrder sessionError [false])
    (StringReport reverseOrder sessionError [true]) = false.
Proof. split; [by vm_compute|]. split; [|by vm_compute]. by vm_compute. Qed.

(** The formatter degrades instead of failing. *)
Example Sprintf_degrades :
  Sprintf "user %s not found" [] = "user %!s(MISSING) not found" ∧
  Sprintf "user %d" [VString "Alex"] = "user %!d(string=Alex)" ∧
  Sprintf "done" [VInt 1; VBool true] = "done%!(EXTRA int=1, bool=true)" ∧
  Sprintf "100%" [] = "100%!(NOVERB)".
Proof. by vm_compute. Qed.

(** Colour sequences are removed, an unfinished one is kept. *)
Example stripAnsiColor_strips :
  stripAnsiColor (ESC +:+ "[0;31mred" +:+ ESC +:+ "[0m, " +:+ ESC +:+ "[1;9")
  = "red, " +:+ ESC +:+ "[1;9".
Proof. by vm_compute. Qed.

End Errors.
